(** * tinyRayTracer: a shallow embedding of [main.cpp]

    The tracer is written once over an interface [Arith] of the
    operations the C++ code applies to [float] values, and then
    instantiated at IEEE-754 binary32 ([float32], built on the standard
    library's executable [SpecFloat] operations, round to nearest
    even), which is what the compiled program computes when every
    [float] operation is evaluated in single precision, one rounding
    per operation, without fused multiply-add.  Every property below
    is about that instance.

    Output parameters ([float &t0], [Vec3f &hit], ...) are modelled by
    explicit state passing: a function receives the value the variable
    holds before the call and returns the value it holds afterwards.
    Uninitialised locals ([float spec, refl;]) are modelled by an
    arbitrary value supplied by the caller of the model.  The library
    functions [std::pow] and [tan] are parameters.  The [double]
    arithmetic of the camera loop is binary64.  The conversion
    [(char)] of a [float] is truncation followed by the narrowing to
    eight bits. *)

From Stdlib Require Import ZArith List Bool Lia String Ascii.
From Stdlib Require Import QArith Qpower.
From Stdlib Require Import Floats.SpecFloat.
From Stdlib Require Import DecimalString.
From Stdlib Require DecimalZ.
Import ListNotations.

Close Scope Q_scope.

(** ** The [float] interface *)

(** Operations of the C++ type [float] used by the program.  [flt a b]
    is the comparison [a < b]; the source's [a > b] is [flt b a].
    [of_int] is the implicit conversion from [int]; [of_lit n d] is the
    conversion to [float] of the [double] literal whose decimal value is
    [n/d]; [flt_max] is [numeric_limits<float>::max()]. *)
Class Arith (F : Type) : Type := {
  fadd : F -> F -> F;
  fsub : F -> F -> F;
  fmul : F -> F -> F;
  fdiv : F -> F -> F;
  fneg : F -> F;
  fsqrt : F -> F;
  flt : F -> F -> bool;
  of_int : Z -> F;
  of_lit : Z -> Z -> F;
  flt_max : F
}.

Declare Scope flt_scope.
Delimit Scope flt_scope with flt.
Infix "+" := fadd : flt_scope.
Infix "-" := fsub : flt_scope.
Infix "*" := fmul : flt_scope.
Infix "/" := fdiv : flt_scope.
Infix "<?" := flt : flt_scope.

(** [std::max(a, b)] returns [b] when [a < b] and [a] otherwise;
    [std::min(a, b)] returns [b] when [b < a] and [a] otherwise. *)
Definition fmax {F} `{Arith F} (a b : F) : F := if flt a b then b else a.

Definition fmin {F} `{Arith F} (a b : F) : F := if flt b a then b else a.

(** ** Vector algebra: [struct Vec3f] *)

Record Vec3f (F : Type) : Type := mkVec3f { x : F; y : F; z : F }.

Arguments mkVec3f {F} _ _ _.
Arguments x {F} _.
Arguments y {F} _.
Arguments z {F} _.

Section VectorAlgebra.
Context {F : Type} `{Arith F}.
Local Open Scope flt_scope.

(** [Vec3f()] *)
Definition Vec3f_zero : Vec3f F := mkVec3f (of_int 0) (of_int 0) (of_int 0).

(** [operator +] *)
Definition Vec3f_add (a v : Vec3f F) : Vec3f F :=
  mkVec3f (x a + x v) (y a + y v) (z a + z v).

(** binary [operator -] *)
Definition Vec3f_sub (a v : Vec3f F) : Vec3f F :=
  mkVec3f (x a - x v) (y a - y v) (z a - z v).

(** [operator * (float k)] *)
Definition Vec3f_scale (a : Vec3f F) (k : F) : Vec3f F :=
  mkVec3f (x a * k) (y a * k) (z a * k).

(** [dot]: [x*v.x + y*v.y + z*v.z], summed left to right. *)
Definition dot (a v : Vec3f F) : F :=
  (x a * x v + y a * y v) + z a * z v.

(** [normalize]: [mag] is the square root of the vector's dot product
    with itself, and the result is the vector scaled by [1.f / mag].
    There is no test on [mag]. *)
Definition normalize (a : Vec3f F) : Vec3f F :=
  let mag := fsqrt (dot a a) in
  Vec3f_scale a (of_int 1 / mag).

(** Modelled from the spec: the unary minus of [-light_dir] in
    [cast_ray].  [struct Vec3f] declares only the binary [operator -];
    the spec writes the argument as [-lightDir], the opposite vector. *)
Definition Vec3f_neg (a : Vec3f F) : Vec3f F :=
  mkVec3f (fneg (x a)) (fneg (y a)) (fneg (z a)).

End VectorAlgebra.

Declare Scope vec_scope.
Delimit Scope vec_scope with vec.
Arguments Vec3f_add {F _} a%_vec v%_vec.
Arguments Vec3f_sub {F _} a%_vec v%_vec.
Arguments Vec3f_scale {F _} a%_vec k%_flt.
Infix "+" := Vec3f_add : vec_scope.
Infix "-" := Vec3f_sub : vec_scope.
Infix "*" := Vec3f_scale : vec_scope.

(** ** Scene data: [struct Light], [struct Sphere] *)

Record Light (F : Type) : Type := mkLight {
  position : Vec3f F;
  intensity : F
}.

Record Sphere (F : Type) : Type := mkSphere {
  center : Vec3f F;
  radius : F;
  color : Vec3f F;
  specular : F;
  reflective : F
}.

Arguments mkLight {F} _ _.
Arguments position {F} _.
Arguments intensity {F} _.
Arguments mkSphere {F} _ _ _ _ _.
Arguments center {F} _.
Arguments radius {F} _.
Arguments color {F} _.
Arguments specular {F} _.
Arguments reflective {F} _.

Section SphereIntersection.
Context {F : Type} `{Arith F}.
Local Open Scope flt_scope.

(** [Sphere::ray_intersect(orig, dir, t0)].  [t0] is the value of the
    reference parameter before the call; the result pairs the returned
    [bool] with the value of [t0] after the call. *)
Definition ray_intersect (s : Sphere F) (orig dir : Vec3f F) (t0 : F)
  : bool * F :=
  let L := (center s - orig)%vec in
  let tca := dot L dir in
  let d2 := dot L L - tca * tca in
  if radius s * radius s <? d2 then (false, t0)
  else
    let thc := fsqrt (radius s * radius s - d2) in
    let t0 := tca - thc in
    let t1 := tca + thc in
    let t0 := if t0 <? of_int 0 then t1 else t0 in
    if t0 <? of_int 0 then (false, t0) else (true, t0).

(** Names for the intermediate values of [ray_intersect], used to state
    its properties: the projection [tca], the squared distance [d2]
    from the centre to the ray's line, the half chord [thc], and the
    near and far roots. *)
Definition tca_of (s : Sphere F) (orig dir : Vec3f F) : F :=
  dot (center s - orig)%vec dir.

Definition d2_of (s : Sphere F) (orig dir : Vec3f F) : F :=
  dot (center s - orig)%vec (center s - orig)%vec
  - tca_of s orig dir * tca_of s orig dir.

Definition thc_of (s : Sphere F) (orig dir : Vec3f F) : F :=
  fsqrt (radius s * radius s - d2_of s orig dir).

Definition near_root (s : Sphere F) (orig dir : Vec3f F) : F :=
  tca_of s orig dir - thc_of s orig dir.

Definition far_root (s : Sphere F) (orig dir : Vec3f F) : F :=
  tca_of s orig dir + thc_of s orig dir.

(** [reflect(I, N)]: [I - N * 2.f * I.dot(N)], that is
    [I - ((N * 2.f) * I.dot(N))]. *)
Definition reflect (I N : Vec3f F) : Vec3f F :=
  (I - (N * of_int 2) * dot I N)%vec.

End SphereIntersection.

(** What a call of [ray_intersect] reports: the distance left in [t0]
    when it returns [true]. *)
Definition intersection {F} `{Arith F} (s : Sphere F) (orig dir : Vec3f F)
  : option F :=
  let '(ok, t) := ray_intersect s orig dir (of_int 0) in
  if ok then Some t else None.

(** ** Scene intersection *)

(** The five reference parameters [hit, N, color, spec, refl] of
    [scene_intersect]. *)
Record Outs (F : Type) : Type := mkOuts {
  o_hit : Vec3f F;
  o_N : Vec3f F;
  o_color : Vec3f F;
  o_spec : F;
  o_refl : F
}.

Arguments mkOuts {F} _ _ _ _ _.
Arguments o_hit {F} _.
Arguments o_N {F} _.
Arguments o_color {F} _.
Arguments o_spec {F} _.
Arguments o_refl {F} _.

(** Contents of the locals that the source declares without an
    initialiser: [float t;] in [scene_intersect], [float spec, refl;]
    and [float sh_spec, sh_refl;] in [cast_ray]. *)
Record Uninit (F : Type) : Type := mkUninit {
  u_t : F;
  u_spec : F;
  u_refl : F;
  u_sh_spec : F;
  u_sh_refl : F
}.

Arguments mkUninit {F} _ _ _ _ _.
Arguments u_t {F} _.
Arguments u_spec {F} _.
Arguments u_refl {F} _.
Arguments u_sh_spec {F} _.
Arguments u_sh_refl {F} _.

Section Tracer.
Context {F : Type} `{Arith F}.
Local Open Scope flt_scope.

(** [std::pow] on [float] arguments, a library function. *)
Variable pow : F -> F -> F.

(** Contents of the uninitialised locals. *)
Variable u : Uninit F.

(** The values written by the body of the [if] in [scene_intersect]
    for sphere [s] hit at distance [t]. *)
Definition record_hit (orig dir : Vec3f F) (s : Sphere F) (t : F) : Outs F :=
  let hit := (orig + dir * t)%vec in
  mkOuts hit (normalize (hit - center s)%vec) (color s) (specular s)
         (reflective s).

(** One iteration of the loop of [scene_intersect]; the loop state is
    the local [dist] and the five reference parameters. *)
Definition scan_step (orig dir : Vec3f F) (st : F * Outs F) (s : Sphere F)
  : F * Outs F :=
  let '(ok, t) := ray_intersect s orig dir (u_t u) in
  if ok && (t <? fst st) then (t, record_hit orig dir s t) else st.

Definition scan (orig dir : Vec3f F) (spheres : list (Sphere F))
  (st : F * Outs F) : F * Outs F :=
  fold_left (scan_step orig dir) spheres st.

(** [scene_intersect(orig, dir, spheres, hit, N, color, spec, refl)]:
    [out] holds the five reference parameters before the call, the
    result pairs the returned [bool] with their contents afterwards. *)
Definition scene_intersect (orig dir : Vec3f F) (spheres : list (Sphere F))
  (out : Outs F) : bool * Outs F :=
  let '(dist, out') := scan orig dir spheres (flt_max, out) in
  (dist <? flt_max, out').

(** ** Shading and recursive cast *)

(** [Vec3f(0.2, 0.7, 0.8)] *)
Definition background : Vec3f F :=
  mkVec3f (of_lit 2 10) (of_lit 7 10) (of_lit 8 10).

(** [hit + N*1e-3], the origin of the shadow and reflection rays. *)
Definition biased (hit N : Vec3f F) : Vec3f F :=
  (hit + N * of_lit 1 1000)%vec.

(** The shadow test of one light: the call of [scene_intersect] on the
    ray from the biased hit point towards the light, with the locals
    [shadow_hit, shadow_N, tmp, sh_spec, sh_refl] as reference
    parameters. *)
Definition shadow_test (spheres : list (Sphere F)) (o : Outs F)
  (light : Light F) : bool * Outs F :=
  let light_dir := normalize (position light - o_hit o)%vec in
  scene_intersect (biased (o_hit o) (o_N o)) light_dir spheres
    (mkOuts Vec3f_zero Vec3f_zero Vec3f_zero (u_sh_spec u) (u_sh_refl u)).

(** The body of the loop over the lights; the loop state is the pair
    of accumulators [(diffuse, specular)]. *)
Definition shade_light (dir : Vec3f F) (spheres : list (Sphere F))
  (o : Outs F) (acc : F * F) (light : Light F) : F * F :=
  let light_dir := normalize (position light - o_hit o)%vec in
  if fst (shadow_test spheres o light) then acc
  else
    let diffuse :=
      fst acc + intensity light * fmax (of_int 0) (dot light_dir (o_N o)) in
    let reflect_dir := reflect (Vec3f_neg light_dir) (o_N o) in
    let specular :=
      snd acc
      + pow (fmax (of_int 0) (dot reflect_dir dir)) (o_spec o)
        * intensity light in
    (diffuse, specular).

Definition shade_lights (dir : Vec3f F) (spheres : list (Sphere F))
  (lights : list (Light F)) (o : Outs F) : F * F :=
  fold_left (shade_light dir spheres o) lights (of_int 0, of_int 0).

(** The [return] expression of [cast_ray]. *)
Definition combine (o : Outs F) (acc : F * F) (reflect_color : Vec3f F)
  : Vec3f F :=
  ((o_color o * fst acc * (of_int 1 - o_refl o)
    + mkVec3f (of_int 1) (of_int 1) (of_int 1) * snd acc * of_lit 6 10)
   + reflect_color * o_refl o)%vec.

(** [cast_ray(orig, dir, spheres, lights, depth)].  The recursion of
    the source is on a growing [depth], so the model carries a bound
    [fuel] on the number of nested calls and answers [None] when the
    bound is reached.  Besides the colour it returns the number of
    calls of [scene_intersect] made, the primary test, the shadow
    tests and those of the nested cast. *)
Fixpoint cast_ray_fuel (fuel : nat) (orig dir : Vec3f F)
  (spheres : list (Sphere F)) (lights : list (Light F)) (depth : Z)
  : option (Vec3f F * nat) :=
  match fuel with
  | O => None
  | S fuel' =>
    if (depth >? 4)%Z then Some (background, O)
    else
      let '(found, o) :=
        scene_intersect orig dir spheres
          (mkOuts Vec3f_zero Vec3f_zero Vec3f_zero (u_spec u) (u_refl u)) in
      if negb found then Some (background, 1%nat)
      else
        let acc := shade_lights dir spheres lights o in
        let reflect_dir := normalize (reflect dir (o_N o)) in
        match cast_ray_fuel fuel' (biased (o_hit o) (o_N o)) reflect_dir
                spheres lights (depth + 1) with
        | None => None
        | Some (reflect_color, n) =>
          Some (combine o acc reflect_color, (1 + List.length lights + n)%nat)
        end
  end.

(** Nested calls needed from [depth]: one per level up to the level 5
    that returns at once. *)
Definition levels (depth : Z) : nat := S (Z.to_nat (5 - depth)).

Definition cast_ray_cost (orig dir : Vec3f F) (spheres : list (Sphere F))
  (lights : list (Light F)) (depth : Z) : Vec3f F * nat :=
  match cast_ray_fuel (levels depth) orig dir spheres lights depth with
  | Some r => r
  | None => (background, O)
  end.

Definition cast_ray (orig dir : Vec3f F) (spheres : list (Sphere F))
  (lights : list (Light F)) (depth : Z) : Vec3f F :=
  fst (cast_ray_cost orig dir spheres lights depth).

End Tracer.

(** ** IEEE-754 binary32 and binary64 *)

(** [float]: binary32 has a 24-bit significand and infinities at
    exponent 128.  [double]: binary64, 53 bits and exponent 1024. *)
Definition float32 : Type := spec_float.

Definition float64 : Type := spec_float.

Definition prec32 : Z := 24.

Definition emax32 : Z := 128.

Definition prec64 : Z := 53.

Definition emax64 : Z := 1024.

(** Conversion of an [int] to [float] and to [double]. *)
Definition f32_of_Z (n : Z) : float32 := binary_normalize prec32 emax32 n 0 false.

Definition f64_of_Z (n : Z) : float64 := binary_normalize prec64 emax64 n 0 false.

(** Conversion of a [double] to [float], rounding to nearest even, and
    the exact conversion of a [float] to [double]. *)
Definition f32_of_f64 (d : float64) : float32 :=
  match d with
  | S754_finite s m e => binary_round prec32 emax32 s m e
  | _ => d
  end.

Definition f64_of_f32 (f : float32) : float64 := f.

(** A decimal literal of type [double] with value [n/d]: the binary64
    number nearest to the quotient. *)
Definition f64_lit (n d : Z) : float64 :=
  SFdiv prec64 emax64 (f64_of_Z n) (f64_of_Z d).

#[export] Instance float32_arith : Arith float32 := {
  fadd := SFadd prec32 emax32;
  fsub := SFsub prec32 emax32;
  fmul := SFmul prec32 emax32;
  fdiv := SFdiv prec32 emax32;
  fneg := SFopp;
  fsqrt := SFsqrt prec32 emax32;
  flt := SFltb;
  of_int := f32_of_Z;
  of_lit := fun n d => f32_of_f64 (f64_lit n d);
  flt_max := SFmax_float prec32 emax32
}.

(** ** Classes of binary32 values *)

(** The exact rational value of a finite binary32 number, and the
    geometric statement that a point lies strictly inside a sphere,
    [|center - orig| < radius], evaluated without rounding on the
    values the [float] inputs denote. *)
Definition f32_finite (f : float32) : bool :=
  match f with
  | S754_zero _ | S754_finite _ _ _ => true
  | _ => false
  end.

Definition is_nan (f : float32) : bool :=
  match f with S754_nan => true | _ => false end.

Definition is_zero (f : float32) : bool :=
  match f with S754_zero _ => true | _ => false end.

(** The exponent function of binary32. *)
Definition fexp32 (k : Z) : Z := Z.max (k - 24) (-149).

Definition f32_exact (f : float32) : Q :=
  match f with
  | S754_finite s m e => inject_Z (cond_Zopp s (Zpos m)) * Qpower 2 e
  | _ => 0
  end.

Definition Vec3f_finite (v : Vec3f float32) : bool :=
  f32_finite (x v) && f32_finite (y v) && f32_finite (z v).



(** ** The program: [main] *)

(** Conversion of a [float] to an integer type: the value is truncated
    towards zero.  (Infinities and NaN have no defined conversion; the
    clamped channels below are never such values.) *)
Definition f32_trunc (f : float32) : Z :=
  match f with
  | S754_finite s m e =>
    cond_Zopp s
      match e with
      | Zneg p => Z.shiftr (Zpos m) (Zpos p)
      | _ => Z.shiftl (Zpos m) e
      end
  | _ => 0
  end.

(** [(char)(255 * max(0.f, min(1.f, c)))]: the byte written for one
    colour channel, the low eight bits of the truncated product. *)
Definition clamp01 (c : float32) : float32 :=
  fmax (of_int 0) (fmin (of_int 1) c).

Definition channel_byte (c : float32) : Z :=
  f32_trunc (fmul (of_int 255) (clamp01 c)) mod 256.

Definition put_char (b : Z) : string :=
  String (ascii_of_N (Z.to_N b)) EmptyString.

(** [ofs << r << g << b] for one framebuffer entry. *)
Definition pixel_bytes (c : Vec3f float32) : string :=
  (put_char (channel_byte (x c)) ++ put_char (channel_byte (y c))
   ++ put_char (channel_byte (z c)))%string.

(** [ofs << n] for an [int]: its decimal digits. *)
Definition put_int (n : Z) : string := NilEmpty.string_of_int (Z.to_int n).

Definition newline : string := String (ascii_of_nat 10) EmptyString.

(** The header: P6, a line break, the width, a space, the height, a
    line break, 255, a line break. *)
Definition ppm_header (width height : Z) : string :=
  ("P6" ++ newline ++ put_int width ++ " " ++ put_int height ++ newline
   ++ "255" ++ newline)%string.

(** The contents of [out.ppm]: the header followed by the bytes of
    every framebuffer entry in order. *)
Definition ppm_pixels (framebuffer : list (Vec3f float32)) : string :=
  fold_right (fun c rest => (pixel_bytes c ++ rest)%string) EmptyString
    framebuffer.

Definition ppm_file (width height : Z) (framebuffer : list (Vec3f float32))
  : string :=
  (ppm_header width height ++ ppm_pixels framebuffer)%string.

(** [v[i] = a] on a [vector] (an index past the end is not written). *)
Fixpoint vector_set {A : Type} (v : list A) (i : nat) (a : A) : list A :=
  match v, i with
  | [], _ => []
  | _ :: v', O => a :: v'
  | b :: v', S i' => b :: vector_set v' i' a
  end.

(** The values [0, 1, ..., n-1] of a loop counter. *)
Definition counter (n : Z) : list Z := map Z.of_nat (seq 0 (Z.to_nat n)).

(** [M_PI], the binary64 number nearest to pi. *)
Definition M_PI : float64 := S754_finite false 7074237752028440 (-51).

Section Main.

(** [std::pow] on [float] and [tan] on [double], library functions. *)
Variable pow : float32 -> float32 -> float32.
Variable tan : float64 -> float64.

(** Contents of the uninitialised locals. *)
Variable u : Uninit float32.

Definition dadd : float64 -> float64 -> float64 := SFadd prec64 emax64.

Definition dsub : float64 -> float64 -> float64 := SFsub prec64 emax64.

Definition dmul : float64 -> float64 -> float64 := SFmul prec64 emax64.

Definition ddiv : float64 -> float64 -> float64 := SFdiv prec64 emax64.

(** [2*(i + 0.5)/(float)n - 1], evaluated in [double]. *)
Definition ndc (i n : Z) : float64 :=
  dsub (ddiv (dmul (f64_of_Z 2) (dadd (f64_of_Z i) (f64_lit 5 10)))
             (f64_of_f32 (f32_of_Z n)))
       (f64_of_Z 1).

(** [float x = (2*(i + 0.5)/(float)width - 1) * tan(fov/2.) * width/(float)height] *)
Definition pixel_x (width height : Z) (fov : float32) (i : Z) : float32 :=
  f32_of_f64
    (ddiv (dmul (dmul (ndc i width) (tan (ddiv (f64_of_f32 fov) (f64_of_Z 2))))
                (f64_of_Z width))
          (f64_of_f32 (f32_of_Z height))).

(** [float y = -(2*(j + 0.5)/(float)height - 1) * tan(fov/2.)] *)
Definition pixel_y (height : Z) (fov : float32) (j : Z) : float32 :=
  f32_of_f64
    (dmul (SFopp (ndc j height)) (tan (ddiv (f64_of_f32 fov) (f64_of_Z 2)))).

(** [Vec3f dir = Vec3f(x, y, -1).normalize()] *)
Definition primary_dir (width height : Z) (fov : float32) (i j : Z)
  : Vec3f float32 :=
  normalize (mkVec3f (pixel_x width height fov i) (pixel_y height fov j)
                     (of_int (-1))).

(** The colour computed for pixel [(i, j)]. *)
Definition pixel_color (width height : Z) (fov : float32)
  (spheres : list (Sphere float32)) (lights : list (Light float32))
  (i j : Z) : Vec3f float32 :=
  cast_ray pow u (mkVec3f (of_int 0) (of_int 0) (of_int 0))
    (primary_dir width height fov i j) spheres lights 0.

(** The body of the inner loop:
    [framebuffer[i + j*width] = cast_ray(Vec3f(0,0,0), dir, spheres, lights)]. *)
Definition render_pixel (width height : Z) (fov : float32)
  (spheres : list (Sphere float32)) (lights : list (Light float32))
  (j : Z) (framebuffer : list (Vec3f float32)) (i : Z)
  : list (Vec3f float32) :=
  vector_set framebuffer (Z.to_nat (i + j * width))
    (cast_ray pow u (mkVec3f (of_int 0) (of_int 0) (of_int 0))
       (primary_dir width height fov i j) spheres lights 0).

Definition render_row (width height : Z) (fov : float32)
  (spheres : list (Sphere float32)) (lights : list (Light float32))
  (framebuffer : list (Vec3f float32)) (j : Z) : list (Vec3f float32) :=
  fold_left (render_pixel width height fov spheres lights j) (counter width)
    framebuffer.

(** The two nested loops of [main] on a framebuffer of
    [width * height] entries. *)
Definition render (width height : Z) (fov : float32)
  (spheres : list (Sphere float32)) (lights : list (Light float32))
  : list (Vec3f float32) :=
  fold_left (render_row width height fov spheres lights) (counter height)
    (repeat Vec3f_zero (Z.to_nat (width * height))).

(** Render and write: the bytes of [out.ppm]. *)
Definition render_ppm (width height : Z) (fov : float32)
  (spheres : list (Sphere float32)) (lights : list (Light float32)) : string :=
  ppm_file width height (render width height fov spheres lights).

(** The scene and the parameters of [main]. *)
Definition main_spheres : list (Sphere float32) :=
  [ mkSphere (mkVec3f (of_int (-3)) (of_int 0) (of_int (-16))) (of_int 2)
      (mkVec3f (of_lit 4 10) (of_lit 4 10) (of_lit 3 10)) (of_int 50)
      (of_lit 2 10);
    mkSphere (mkVec3f (of_int (-1)) (of_lit (-15) 10) (of_int (-12))) (of_int 2)
      (mkVec3f (of_lit 3 10) (of_lit 1 10) (of_lit 1 10)) (of_int 10)
      (of_lit 4 10);
    mkSphere (mkVec3f (of_lit 15 10) (of_lit (-5) 10) (of_int (-18))) (of_int 3)
      (mkVec3f (of_lit 3 10) (of_lit 4 10) (of_lit 3 10)) (of_int 100)
      (of_lit 3 10);
    mkSphere (mkVec3f (of_int 7) (of_int 5) (of_int (-18))) (of_int 4)
      (mkVec3f (of_lit 1 10) (of_lit 2 10) (of_lit 4 10)) (of_int 300)
      (of_lit 1 10) ].

Definition main_lights : list (Light float32) :=
  [ mkLight (mkVec3f (of_int (-20)) (of_int 20) (of_int 20)) (of_lit 15 10);
    mkLight (mkVec3f (of_int 30) (of_int 50) (of_int (-25))) (of_lit 18 10);
    mkLight (mkVec3f (of_int 30) (of_int 20) (of_int 30)) (of_lit 17 10) ].

Definition main_fov : float32 := f32_of_f64 (ddiv M_PI (f64_of_Z 2)).

Definition main : string :=
  render_ppm 800 600 main_fov main_spheres main_lights.

End Main.

(** ** Predicates used to state the properties *)

Section ScanPredicates.
Variables orig dir : Vec3f float32.
Variable out0 : Outs float32.

(** No sphere of the scanned prefix reports a distance below [dist]. *)
Definition nothing_nearer (pre : list (Sphere float32)) (dist : float32) : Prop :=
  forall s' t', In s' pre -> intersection s' orig dir = Some t' ->
                SFltb t' dist = false.

(** The loop invariant of [scene_intersect] after the spheres [pre]:
    either nothing was written, [dist] is still the sentinel and the
    reference parameters are untouched, or they hold the record of a
    sphere of [pre] whose distance is [dist], below the sentinel, and
    every sphere scanned before it is strictly farther. *)
Definition scan_inv (pre : list (Sphere float32))
  (st : float32 * Outs float32) : Prop :=
  nothing_nearer pre (fst st) /\
  ((fst st = flt_max /\ snd st = out0) \/
   (exists pre1 s post1 t,
      pre = pre1 ++ s :: post1 /\
      intersection s orig dir = Some t /\
      fst st = t /\ SFltb t flt_max = true /\
      snd st = record_hit orig dir s t /\
      forall s' t', In s' pre1 -> intersection s' orig dir = Some t' ->
                    SFleb t' t = false)).

End ScanPredicates.

(** ** The shading formula of the specification *)

(** The formula as the specification words it: the totals are sums
    over the lights that are not occluded, and the colour combines
    them with the reflected colour. *)
Section ShadingFormulaSpec.
Context {F : Type} `{Arith F}.
Local Open Scope flt_scope.
Variable pow : F -> F -> F.
Variable u : Uninit F.

Definition spec_light_dir (o : Outs F) (light : Light F) : Vec3f F :=
  normalize (position light - o_hit o)%vec.

Definition spec_unoccluded (spheres : list (Sphere F)) (o : Outs F)
  (light : Light F) : bool :=
  negb (fst (shadow_test u spheres o light)).

(** [intensity * max(0, lightDir . normal)] *)
Definition spec_diffuse_term (o : Outs F) (light : Light F) : F :=
  intensity light * fmax (of_int 0) (dot (spec_light_dir o light) (o_N o)).

(** [intensity * max(0, reflect(-lightDir, normal) . rayDir)^specularExponent] *)
Definition spec_specular_term (dir : Vec3f F) (o : Outs F) (light : Light F)
  : F :=
  intensity light
  * pow (fmax (of_int 0)
           (dot (reflect (Vec3f_neg (spec_light_dir o light)) (o_N o)) dir))
        (o_spec o).

(** A sum of terms, accumulated in list order from zero. *)
Definition spec_sum (terms : list F) : F := fold_left fadd terms (of_int 0).

Definition spec_total_diffuse (spheres : list (Sphere F))
  (lights : list (Light F)) (o : Outs F) : F :=
  spec_sum (map (spec_diffuse_term o) (filter (spec_unoccluded spheres o) lights)).

Definition spec_total_specular (dir : Vec3f F) (spheres : list (Sphere F))
  (lights : list (Light F)) (o : Outs F) : F :=
  spec_sum (map (spec_specular_term dir o)
              (filter (spec_unoccluded spheres o) lights)).

(** [surfaceColor * totalDiffuse * (1 - reflectivity)
     + white * totalSpecular * 0.6 + reflectedColor * reflectivity] *)
Definition spec_final_color (surfaceColor : Vec3f F)
  (totalDiffuse totalSpecular reflectivity : F) (reflectedColor : Vec3f F)
  : Vec3f F :=
  ((surfaceColor * totalDiffuse * (of_int 1 - reflectivity)
    + mkVec3f (of_int 1) (of_int 1) (of_int 1) * totalSpecular * of_lit 6 10)
   + reflectedColor * reflectivity)%vec.

End ShadingFormulaSpec.

(** ** Predicates used to state further properties *)

(** The sign bit of a binary32 value is clear, or the value is NaN:
    the value is not below zero and is not the negative zero. *)
Definition sign_clear (f : float32) : bool :=
  match f with
  | S754_zero s | S754_infinity s | S754_finite s _ _ => negb s
  | S754_nan => true
  end.

(** Some component of the vector is NaN. *)
Definition Vec3f_has_nan (v : Vec3f float32) : bool :=
  is_nan (x v) || is_nan (y v) || is_nan (z v).

(** The sphere can be recorded by the scan of [scene_intersect]:
    [ray_intersect] returns [true] and the distance it leaves passes
    the test against the sentinel, [t < FLT_MAX]. *)
Definition within_reach (orig dir : Vec3f float32) (s : Sphere float32) : bool :=
  let '(ok, t) := ray_intersect s orig dir (of_int 0) in
  ok && (t <? flt_max)%flt.

(** The value is not a negative number: it is NaN, a zero of either
    sign, plus infinity or a positive finite number. *)
Definition not_negative (f : float32) : bool :=
  match f with
  | S754_infinity true | S754_finite true _ _ => false
  | _ => true
  end.




(** ** Rounding to binary32, on integers *)

(** [SpecFloat] rounds a mantissa through a record [(m, r, s)]: the
    mantissa kept so far, the last bit shifted out and whether any
    earlier bit shifted out was set.  The record is read as the
    integer [4 * m + 2 * r + s], its code; a code stands for four
    times the value it was cut from, the last two bits telling on
    which side of a half the remainder lies. *)
Definition shr_code (mrs : shr_record) : Z :=
  (4 * shr_m mrs + 2 * Z.b2z (shr_r mrs) + Z.b2z (shr_s mrs))%Z.

(** One step of [shr_1] on codes. *)
Definition sticky_half (c : Z) : Z :=
  (c / 2 + (if c mod 4 =? 1 then 1 else 0))%Z.

(** [shr] by [n] places on codes. *)
Definition sticky_shift (c n : Z) : Z :=
  match n with
  | Zpos p => SpecFloat.iter_pos sticky_half p c
  | _ => c
  end.

(** [round_nearest_even] on codes. *)
Definition round_code (c : Z) : Z :=
  (if c mod 4 <=? 1 then c / 4
   else if c mod 4 =? 2 then (if Z.even (c / 4) then c / 4 else c / 4 + 1)
   else c / 4 + 1)%Z.

(** The binary32 value with mantissa [M] and exponent [E], infinite
    past the largest exponent. *)
Definition mk_float (s : bool) (M E : Z) : float32 :=
  match M with
  | Z0 => S754_zero s
  | Zpos m => if (E <=? 104)%Z then S754_finite s m E else S754_infinity s
  | Zneg _ => S754_nan
  end.

(** [binary_round_aux] written on codes: the mantissa [mx] with code
    [c0] at exponent [ex] is shifted to the exponent of its binade,
    rounded, and shifted once more when the rounding carried into the
    next binade. *)
Definition round_model (s : bool) (mx ex c0 : Z) : float32 :=
  let n1 := (fexp32 (Zdigits2 mx + ex) - ex)%Z in
  let e1 := (ex + Z.max 0 n1)%Z in
  let m1 := round_code (sticky_shift c0 n1) in
  let n2 := (fexp32 (Zdigits2 m1 + e1) - e1)%Z in
  mk_float s (m1 / 2 ^ Z.max 0 n2) (e1 + Z.max 0 n2).

(** ** Concrete inputs used in the examples *)

Definition vec3 (a b c : Z) : Vec3f float32 :=
  mkVec3f (of_int a) (of_int b) (of_int c).

(** A sphere with the given centre and radius and some fixed material. *)
Definition ball (c : Vec3f float32) (r : Z) : Sphere float32 :=
  mkSphere c (of_int r) (mkVec3f (of_lit 4 10) (of_lit 4 10) (of_lit 3 10))
    (of_int 50) (of_lit 2 10).

(** Uninitialised locals that happen to hold NaN, and others holding
    ordinary numbers. *)
Definition u_nan : Uninit float32 :=
  mkUninit S754_nan S754_nan S754_nan S754_nan S754_nan.

Definition u_num : Uninit float32 :=
  mkUninit (of_int 1) (of_int 2) (of_int 3) (of_int 4) (of_int 5).

(** The unit sphere five units down the negative z axis. *)
Definition front_sphere : Sphere float32 := ball (vec3 0 0 (-5)) 1.

(** A unit sphere that the ray from the origin along the negative z
    axis touches in one point. *)
Definition tangent_sphere : Sphere float32 := ball (vec3 1 0 (-5)) 1.

(** A unit sphere [2^64] units down the negative z axis. *)
Definition far_sphere : Sphere float32 := ball (vec3 0 0 (- 2 ^ 64)) 1.


(** A surface point at the origin facing up the z axis, a light five
    units above it, and a unit sphere ten units above it, beyond the
    light. *)
Definition up_point : Outs float32 :=
  mkOuts (vec3 0 0 0) (vec3 0 0 1) (vec3 1 1 1) (of_int 10) (of_lit 5 10).

Definition near_light : Light float32 := mkLight (vec3 0 0 5) (of_lit 15 10).



(** Some function standing for [std::pow] in the examples. *)
Definition pow_example (b e : float32) : float32 := fmul b e.

(** * Properties *)

(** ** The comparison of binary32 numbers *)

Lemma f32_zero : (of_int 0 : float32) = S754_zero false.
Proof. reflexivity. Qed.

Ltac cmp_cases :=
  repeat match goal with
  | H : context [Pos.compare_cont Eq ?a ?b] |- _ =>
    change (Pos.compare_cont Eq a b) with (Pos.compare a b) in H
  | |- context [Pos.compare_cont Eq ?a ?b] =>
    change (Pos.compare_cont Eq a b) with (Pos.compare a b)
  end;
  repeat match goal with
  | H : context [Z.compare ?a ?b] |- _ =>
    destruct (Z.compare_spec a b); simpl in H
  | |- context [Z.compare ?a ?b] =>
    destruct (Z.compare_spec a b); simpl
  | H : context [Pos.compare ?a ?b] |- _ =>
    destruct (Pos.compare_spec a b); simpl in H
  | |- context [Pos.compare ?a ?b] =>
    destruct (Pos.compare_spec a b); simpl
  end;
  subst; try discriminate; try reflexivity; try lia.

Lemma SFltb_irrefl (a : float32) : SFltb a a = false.
Proof.
  destruct a as [s|s| |s m e]; try destruct s; unfold SFltb; simpl;
    try reflexivity; cmp_cases.
Qed.

Lemma SFltb_trans (a b c : float32) :
  SFltb a b = true -> SFltb b c = true -> SFltb a c = true.
Proof.
  unfold SFltb.
  destruct a as [sa|sa| |sa ma ea], b as [sb|sb| |sb mb eb],
           c as [sc|sc| |sc mc ec];
    try destruct sa; try destruct sb; try destruct sc; simpl;
    intros Hab Hbc; try discriminate; try reflexivity; cmp_cases.
Qed.

Lemma SFleb_ltb_trans (a b c : float32) :
  SFleb a b = true -> SFltb b c = true -> SFltb a c = true.
Proof.
  unfold SFltb, SFleb.
  destruct a as [sa|sa| |sa ma ea], b as [sb|sb| |sb mb eb],
           c as [sc|sc| |sc mc ec];
    try destruct sa; try destruct sb; try destruct sc; simpl;
    intros Hab Hbc; try discriminate; try reflexivity; cmp_cases.
Qed.

Lemma SFeqb_not_ltb (a b : float32) : SFeqb a b = true -> SFltb b a = false.
Proof.
  unfold SFltb, SFeqb.
  destruct a as [sa|sa| |sa ma ea], b as [sb|sb| |sb mb eb];
    try destruct sa; try destruct sb; simpl;
    intros Hab; try discriminate; try reflexivity; cmp_cases.
Qed.

Lemma not_ltb_zero_leb (t : float32) :
  SFltb t (S754_zero false) = false -> is_nan t = false ->
  SFleb (S754_zero false) t = true.
Proof.
  destruct t as [s|s| |s m e]; try destruct s; unfold SFltb, SFleb; simpl;
    intros; try discriminate; reflexivity.
Qed.

(** ** [Sphere::ray_intersect] *)

Section RayIntersectFacts.
Context {F : Type} `{Arith F}.
Local Open Scope flt_scope.

(** The two tests of [ray_intersect] in terms of the named
    intermediate values. *)
Lemma ray_intersect_unfold (s : Sphere F) (orig dir : Vec3f F) (t_in : F) :
  ray_intersect s orig dir t_in =
  if radius s * radius s <? d2_of s orig dir then (false, t_in)
  else
    let t := if near_root s orig dir <? of_int 0 then far_root s orig dir
             else near_root s orig dir in
    (negb (t <? of_int 0), t).
Proof.
  unfold ray_intersect, near_root, far_root, thc_of, d2_of, tca_of.
  destruct (flt _ (fsub (dot _ _) _)); [reflexivity|].
  cbv zeta.
  destruct (flt (if flt _ _ then _ else _) (of_int 0)); reflexivity.
Qed.

(** The value left in [t0] never depends on its previous contents when
    the call succeeds. *)
Lemma ray_intersect_hit_indep (s : Sphere F) (orig dir : Vec3f F)
  (t_in t_in' t : F) :
  ray_intersect s orig dir t_in = (true, t) ->
  ray_intersect s orig dir t_in' = (true, t).
Proof.
  rewrite !ray_intersect_unfold.
  destruct (flt _ (d2_of _ _ _)); [discriminate|]. exact (fun e => e).
Qed.

End RayIntersectFacts.

Lemma binary_round_aux_sign (s : bool) (m e : Z) (l : location) :
  match binary_round_aux prec32 emax32 s m e l with
  | S754_zero s' | S754_infinity s' | S754_finite s' _ _ => s' = s
  | S754_nan => True
  end.
Proof.
  unfold binary_round_aux.
  destruct (shr_fexp prec32 emax32 m e l) as [mrs' e'].
  destruct (shr_fexp prec32 emax32 _ e' loc_Exact) as [mrs'' e''].
  destruct (shr_m mrs''); [reflexivity| |exact I].
  destruct (Z.leb _ _); reflexivity.
Qed.

Lemma SFmul_self_sign (r : float32) :
  match SFmul prec32 emax32 r r with
  | S754_zero s' | S754_infinity s' | S754_finite s' _ _ => s' = false
  | S754_nan => True
  end.
Proof.
  destruct r as [s|s| |s m e]; simpl; try (destruct s; reflexivity); [exact I|].
  pose proof (binary_round_aux_sign (xorb s s) (Zpos (m * m)) (e + e) loc_Exact) as Hs.
  destruct (binary_round_aux _ _ _ _ _ _); try exact I;
    rewrite Hs; destruct s; reflexivity.
Qed.

Lemma SFsub_eq_zero (a b : float32) :
  SFeqb a b = true -> f32_finite b = true ->
  match b with S754_zero true | S754_finite true _ _ => False | _ => True end ->
  SFsub prec32 emax32 b a = S754_zero false.
Proof.
  unfold SFeqb.
  destruct a as [sa|sa| |sa ma ea], b as [sb|sb| |sb mb eb];
    try destruct sa; try destruct sb; simpl;
    intros Hab Hfin Hpos; try discriminate; try reflexivity; try contradiction.
  revert Hab. cmp_cases. intros _.
  rewrite Z.pos_sub_diag. reflexivity.
Qed.

Lemma f32_sub_zero_r (a : float32) : (a - S754_zero false)%flt = a.
Proof. destruct a as [s|s| |s m e]; try destruct s; reflexivity. Qed.

Lemma f32_add_zero_r_neg (a : float32) :
  (a <? S754_zero false)%flt = true -> (a + S754_zero false)%flt = a.
Proof.
  destruct a as [s|s| |s m e]; try destruct s; unfold flt; simpl;
    unfold SFltb; simpl; intros; try discriminate; reflexivity.
Qed.

(** ** [scene_intersect] *)

Section IntersectionFacts.
Context {F : Type} `{Arith F}.

Lemma intersection_some (s : Sphere F) (orig dir : Vec3f F) (t_in t : F) :
  ray_intersect s orig dir t_in = (true, t) <-> intersection s orig dir = Some t.
Proof.
  unfold intersection. split.
  - intros Hhit. rewrite (ray_intersect_hit_indep _ _ _ _ (of_int 0) _ Hhit).
    reflexivity.
  - destruct (ray_intersect s orig dir (of_int 0)) as [ok t'] eqn:Hr.
    destruct ok; [|discriminate]. intros Hs. injection Hs as ->.
    exact (ray_intersect_hit_indep _ _ _ _ t_in _ Hr).
Qed.

Lemma intersection_none (s : Sphere F) (orig dir : Vec3f F) (t_in : F) :
  fst (ray_intersect s orig dir t_in) = false <-> intersection s orig dir = None.
Proof.
  unfold intersection. rewrite !ray_intersect_unfold.
  destruct (flt _ (d2_of _ _ _)); simpl; [tauto|].
  destruct (flt (if flt _ _ then _ else _) (of_int 0)); simpl;
    split; congruence.
Qed.

(** One iteration of the scan, in terms of what the sphere reports. *)
Lemma scan_step_unfold (u : Uninit F) (orig dir : Vec3f F)
  (st : F * Outs F) (s : Sphere F) :
  scan_step u orig dir st s =
  match intersection s orig dir with
  | Some t => if flt t (fst st) then (t, record_hit orig dir s t) else st
  | None => st
  end.
Proof.
  unfold scan_step.
  destruct (ray_intersect s orig dir (u_t u)) as [ok t] eqn:Hr.
  destruct ok.
  - apply intersection_some in Hr. rewrite Hr. reflexivity.
  - assert (Hn : intersection s orig dir = None).
    { apply (intersection_none s orig dir (u_t u)). rewrite Hr. reflexivity. }
    rewrite Hn. reflexivity.
Qed.

End IntersectionFacts.

Section ScanInvariant.
Variable u : Uninit float32.
Variables orig dir : Vec3f float32.
Variable out0 : Outs float32.

Lemma scan_inv_init : scan_inv orig dir out0 [] (flt_max, out0).
Proof.
  split; [intros s' t' []|]. left. split; reflexivity.
Qed.

Lemma scan_inv_step (pre : list (Sphere float32))
  (st : float32 * Outs float32) (s : Sphere float32) :
  scan_inv orig dir out0 pre st ->
  scan_inv orig dir out0 (pre ++ [s]) (scan_step u orig dir st s).
Proof.
  intros [Hnear Hcase]. rewrite scan_step_unfold.
  destruct (intersection s orig dir) as [t|] eqn:Hs.
  - destruct (flt t (fst st)) eqn:Hlt.
    + (* the sphere is strictly nearer: it is recorded *)
      simpl flt in Hlt. split.
      * intros s' t' Hin Hs'. simpl fst.
        apply in_app_or in Hin. destruct Hin as [Hin|[<-|[]]].
        -- destruct (SFltb t' t) eqn:Hc; [|reflexivity].
           rewrite <- (Hnear s' t' Hin Hs').
           symmetry. exact (SFltb_trans _ _ _ Hc Hlt).
        -- rewrite Hs in Hs'. injection Hs' as <-. apply SFltb_irrefl.
      * right. exists pre, s, [], t. simpl fst. simpl snd.
        repeat split; try reflexivity; try assumption.
        -- destruct Hcase as [[Hd _]|(pre1 & s1 & post1 & t1 & _ & _ & Hd & Hm & _)].
           ++ rewrite Hd in Hlt. exact Hlt.
           ++ rewrite Hd in Hlt. exact (SFltb_trans _ _ _ Hlt Hm).
        -- intros s' t' Hin Hs'.
           destruct (SFleb t' t) eqn:Hc; [|reflexivity].
           rewrite <- (Hnear s' t' Hin Hs').
           symmetry. exact (SFleb_ltb_trans _ _ _ Hc Hlt).
    + (* not nearer: the state is kept *)
      simpl flt in Hlt. split.
      * intros s' t' Hin Hs'.
        apply in_app_or in Hin. destruct Hin as [Hin|[<-|[]]].
        -- exact (Hnear s' t' Hin Hs').
        -- rewrite Hs in Hs'. injection Hs' as <-. exact Hlt.
      * destruct Hcase as [Hl|(pre1 & s1 & post1 & t1 & Hp & Hr)];
          [left; exact Hl|right].
        exists pre1, s1, (post1 ++ [s]), t1. split; [|exact Hr].
        rewrite Hp, <- app_assoc. reflexivity.
  - split.
    + intros s' t' Hin Hs'.
      apply in_app_or in Hin. destruct Hin as [Hin|[<-|[]]].
      * exact (Hnear s' t' Hin Hs').
      * rewrite Hs in Hs'. discriminate.
    + destruct Hcase as [Hl|(pre1 & s1 & post1 & t1 & Hp & Hr)];
        [left; exact Hl|right].
      exists pre1, s1, (post1 ++ [s]), t1. split; [|exact Hr].
      rewrite Hp, <- app_assoc. reflexivity.
Qed.

Lemma scan_inv_fold (rest pre : list (Sphere float32))
  (st : float32 * Outs float32) :
  scan_inv orig dir out0 pre st ->
  scan_inv orig dir out0 (pre ++ rest) (scan u orig dir rest st).
Proof.
  revert pre st. induction rest as [|s rest IH]; intros pre st Hinv.
  - rewrite app_nil_r. exact Hinv.
  - change (pre ++ s :: rest) with (pre ++ [s] ++ rest).
    rewrite app_assoc. apply (IH (pre ++ [s])). apply scan_inv_step. exact Hinv.
Qed.

Lemma scan_inv_final (spheres : list (Sphere float32)) :
  scan_inv orig dir out0 spheres (scan u orig dir spheres (flt_max, out0)).
Proof. exact (scan_inv_fold spheres [] _ scan_inv_init). Qed.

End ScanInvariant.

(** C2.  [scene_intersect] scans the spheres in list order and keeps a
    sphere only when its distance is strictly below the best so far.
    When it reports a hit, the reference parameters hold the record of
    a sphere of the list whose distance [t] is below the sentinel, no
    sphere of the list reports a distance below [t], and every sphere
    scanned before it is strictly farther, so among equal distances the
    first one scanned supplies the data.  It reports no hit exactly
    when no sphere of the list reports a distance below the sentinel
    [flt_max].  A sphere reports the distance [t], [intersection]
    gives [Some t], when [ray_intersect] returns [true] and leaves [t]
    in its reference parameter. *)
Theorem scene_intersect_nearest (u : Uninit float32)
  (orig dir : Vec3f float32) (spheres : list (Sphere float32))
  (out0 : Outs float32) :
  let r := scene_intersect u orig dir spheres out0 in
  (fst r = true ->
   exists pre s post t,
     spheres = pre ++ s :: post /\
     intersection s orig dir = Some t /\
     SFltb t flt_max = true /\
     snd r = record_hit orig dir s t /\
     (forall s' t', In s' spheres -> intersection s' orig dir = Some t' ->
                    SFltb t' t = false) /\
     (forall s' t', In s' pre -> intersection s' orig dir = Some t' ->
                    SFleb t' t = false)) /\
  (fst r = false <->
   forall s' t', In s' spheres -> intersection s' orig dir = Some t' ->
                 SFltb t' flt_max = false) /\
  (forall (s' : Sphere float32) (t_in t' : float32),
     ray_intersect s' orig dir t_in = (true, t') <->
     intersection s' orig dir = Some t').
Proof.
  intros r.
  cut ((fst r = true ->
        exists pre s post t,
          spheres = pre ++ s :: post /\
          intersection s orig dir = Some t /\
          SFltb t flt_max = true /\
          snd r = record_hit orig dir s t /\
          (forall s' t', In s' spheres -> intersection s' orig dir = Some t' ->
                         SFltb t' t = false) /\
          (forall s' t', In s' pre -> intersection s' orig dir = Some t' ->
                         SFleb t' t = false)) /\
       (fst r = false <->
        forall s' t', In s' spheres -> intersection s' orig dir = Some t' ->
                      SFltb t' flt_max = false)).
  { intros [Hhit Hmiss]. split; [exact Hhit|]. split; [exact Hmiss|].
    intros s' t_in t'. apply intersection_some. }
  subst r. unfold scene_intersect.
  pose proof (scan_inv_final u orig dir out0 spheres) as [Hnear Hcase].
  destruct (scan u orig dir spheres (flt_max, out0)) as [dist out'].
  simpl fst in *. simpl snd in *. split.
  - intros Hfound.
    destruct Hcase as [[Hd _]|(pre & s & post & t & Hp & Hs & Hd & Hm & Ho & Hfirst)].
    + subst dist.
      assert (Hx : SFltb flt_max flt_max = true) by exact Hfound.
      rewrite SFltb_irrefl in Hx. discriminate.
    + exists pre, s, post, t. subst dist. auto 10.
  - split.
    + intros Hmiss s' t' Hin Hs'.
      destruct Hcase as [[Hd _]|(pre & s & post & t & _ & _ & Hd & Hm & _)].
      * subst dist. exact (Hnear s' t' Hin Hs').
      * subst dist.
        assert (Hx : SFltb t flt_max = false) by exact Hmiss.
        rewrite Hm in Hx. discriminate.
    + intros Hall.
      destruct Hcase as [[Hd _]|(pre & s & post & t & Hp & Hs & Hd & Hm & _)].
      * subst dist. apply SFltb_irrefl.
      * rewrite (Hall s t) in Hm; [discriminate| |exact Hs].
        rewrite Hp. apply in_or_app. right. left. reflexivity.
Qed.

(** C2, the part that fails.  The sphere [far_sphere] lies straight
    ahead of the ray from the origin along the negative z axis.
    [ray_intersect] returns [true] for it, but the squares overflow,
    the distance it leaves is NaN, and [scene_intersect] reports no
    hit: "no hit exactly when no sphere of the list intersects the
    ray" fails here. *)
Lemma scene_intersect_far_sphere :
  ~ (fst (scene_intersect u_num (vec3 0 0 0) (vec3 0 0 (-1)) [far_sphere]
            (mkOuts Vec3f_zero Vec3f_zero Vec3f_zero (of_int 0) (of_int 0)))
     = false <->
     forall s, In s [far_sphere] ->
       fst (ray_intersect s (vec3 0 0 0) (vec3 0 0 (-1)) (of_int 0)) = false).
Proof.
  intros [Hto _].
  assert (Hmiss : fst (scene_intersect u_num (vec3 0 0 0) (vec3 0 0 (-1))
                         [far_sphere]
                         (mkOuts Vec3f_zero Vec3f_zero Vec3f_zero
                                 (of_int 0) (of_int 0))) = false)
    by (vm_compute; reflexivity).
  specialize (Hto Hmiss far_sphere (or_introl eq_refl)).
  vm_compute in Hto. discriminate.
Qed.

(** ** [cast_ray] *)

Section CastRayFacts.
Context {F : Type} `{Arith F}.
Variable pow : F -> F -> F.
Variable u : Uninit F.
Variable spheres : list (Sphere F).
Variable lights : list (Light F).

(** One unfolding of the model of the recursive function. *)
Lemma cast_ray_fuel_S (fuel : nat) (orig dir : Vec3f F) (depth : Z) :
  cast_ray_fuel pow u (S fuel) orig dir spheres lights depth =
  if (depth >? 4)%Z then Some (background, O)
  else
    let '(found, o) :=
      scene_intersect u orig dir spheres
        (mkOuts Vec3f_zero Vec3f_zero Vec3f_zero (u_spec u) (u_refl u)) in
    if negb found then Some (background, 1%nat)
    else
      match cast_ray_fuel pow u fuel (biased (o_hit o) (o_N o))
              (normalize (reflect dir (o_N o))) spheres lights (depth + 1) with
      | None => None
      | Some (reflect_color, n) =>
        Some (combine o (shade_lights pow u dir spheres lights o) reflect_color,
              (1 + List.length lights + n)%nat)
      end.
Proof. reflexivity. Qed.

(** The bound [levels depth] on nested calls is enough, and a larger
    bound changes nothing. *)
Lemma cast_ray_fuel_enough (n : nat) :
  forall (orig dir : Vec3f F) (depth : Z) (k : nat),
  (Z.to_nat (5 - depth) <= n)%nat ->
  cast_ray_fuel pow u (S n + k) orig dir spheres lights depth
  = cast_ray_fuel pow u (S n) orig dir spheres lights depth /\
  cast_ray_fuel pow u (S n) orig dir spheres lights depth <> None.
Proof.
  induction n as [|n IH]; intros orig dir depth k Hle.
  - assert (Hd : (depth >? 4)%Z = true) by (apply Z.gtb_lt; lia).
    rewrite !cast_ray_fuel_S, Hd. split; [reflexivity|discriminate].
  - change (S (S n) + k)%nat with (S (S n + k)).
    rewrite (cast_ray_fuel_S (S n + k)), (cast_ray_fuel_S (S n)).
    destruct (depth >? 4)%Z eqn:Hd; [split; [reflexivity|discriminate]|].
    destruct (scene_intersect u orig dir spheres _) as [found o].
    destruct (negb found); [split; [reflexivity|discriminate]|].
    rewrite Z.gtb_ltb in Hd. apply Z.ltb_ge in Hd.
    destruct (IH (biased (o_hit o) (o_N o)) (normalize (reflect dir (o_N o)))
                 (depth + 1)%Z k) as [Heq Hsome]; [lia|].
    rewrite Heq.
    destruct (cast_ray_fuel pow u (S n) _ _ spheres lights (depth + 1))
      as [[rc m]|]; [split; [reflexivity|discriminate]|].
    exfalso. apply Hsome. reflexivity.
Qed.

Lemma cast_ray_fuel_total (orig dir : Vec3f F) (depth : Z) (fuel : nat) :
  (levels depth <= fuel)%nat ->
  cast_ray_fuel pow u fuel orig dir spheres lights depth
  = Some (cast_ray_cost pow u orig dir spheres lights depth).
Proof.
  intros Hle. unfold cast_ray_cost, levels in *.
  set (n := Z.to_nat (5 - depth)) in *.
  destruct (cast_ray_fuel_enough n orig dir depth (fuel - S n) (le_n _))
    as [Heq Hsome].
  replace (S n + (fuel - S n))%nat with fuel in Heq by lia.
  rewrite Heq.
  destruct (cast_ray_fuel pow u (S n) orig dir spheres lights depth);
    [reflexivity|contradiction].
Qed.

(** The recursive equation of the source: [cast_ray] at [depth] in
    terms of [cast_ray] at [depth + 1]. *)
Lemma cast_ray_cost_unfold (orig dir : Vec3f F) (depth : Z) :
  cast_ray_cost pow u orig dir spheres lights depth =
  if (depth >? 4)%Z then (background, O)
  else
    let '(found, o) :=
      scene_intersect u orig dir spheres
        (mkOuts Vec3f_zero Vec3f_zero Vec3f_zero (u_spec u) (u_refl u)) in
    if negb found then (background, 1%nat)
    else
      let '(reflect_color, n) :=
        cast_ray_cost pow u (biased (o_hit o) (o_N o))
          (normalize (reflect dir (o_N o))) spheres lights (depth + 1) in
      (combine o (shade_lights pow u dir spheres lights o) reflect_color,
       (1 + List.length lights + n)%nat).
Proof.
  unfold cast_ray_cost at 1. unfold levels. rewrite cast_ray_fuel_S.
  destruct (depth >? 4)%Z eqn:Hd; [reflexivity|].
  destruct (scene_intersect u orig dir spheres _) as [found o].
  destruct (negb found); [reflexivity|].
  rewrite Z.gtb_ltb in Hd. apply Z.ltb_ge in Hd.
  rewrite cast_ray_fuel_total by (unfold levels; lia).
  destruct (cast_ray_cost pow u _ _ spheres lights (depth + 1)) as [rc n].
  reflexivity.
Qed.

(** Past the depth bound nothing is tested. *)
Lemma cast_ray_cost_deep (orig dir : Vec3f F) (depth : Z) :
  (depth > 4)%Z ->
  cast_ray_cost pow u orig dir spheres lights depth = (background, O).
Proof.
  intros Hd. rewrite cast_ray_cost_unfold.
  replace (depth >? 4)%Z with true by (symmetry; apply Z.gtb_lt; lia).
  reflexivity.
Qed.

(** At most [1 + |lights|] calls of [scene_intersect] per level, on
    at most [5 - depth] levels. *)
Lemma cast_ray_cost_bound (n : nat) :
  forall (orig dir : Vec3f F) (depth : Z),
  Z.to_nat (5 - depth) = n ->
  (snd (cast_ray_cost pow u orig dir spheres lights depth)
   <= n * (1 + List.length lights))%nat.
Proof.
  induction n as [|n IH]; intros orig dir depth Hn.
  - rewrite cast_ray_cost_deep by lia. simpl. lia.
  - rewrite cast_ray_cost_unfold.
    replace (depth >? 4)%Z with false by (symmetry; rewrite Z.gtb_ltb; apply Z.ltb_ge; lia).
    destruct (scene_intersect u orig dir spheres _) as [found o].
    destruct (negb found); [simpl; lia|].
    specialize (IH (biased (o_hit o) (o_N o)) (normalize (reflect dir (o_N o)))
                   (depth + 1)%Z).
    destruct (cast_ray_cost pow u _ _ spheres lights (depth + 1)) as [rc m].
    simpl snd in *. specialize (IH ltac:(lia)). lia.
Qed.


End CastRayFacts.

(** ** Independence from the contents of uninitialised locals *)

Section Determinism.
Context {F : Type} `{Arith F}.
Hypothesis flt_max_irrefl : flt (flt_max : F) flt_max = false.
Variable pow : F -> F -> F.
Variables u u' : Uninit F.

(** The scan never reads [t] before [ray_intersect] has written it. *)
Lemma scan_uninit (orig dir : Vec3f F) (spheres : list (Sphere F))
  (st : F * Outs F) :
  scan u orig dir spheres st = scan u' orig dir spheres st.
Proof.
  revert st. induction spheres as [|s rest IH]; intros st; [reflexivity|].
  unfold scan in *. simpl. rewrite (scan_step_unfold u), (scan_step_unfold u').
  apply IH.
Qed.

(** Two scans that start from the same [dist] end with the same
    [dist]; they end with the same reference parameters unless neither
    has written them. *)
Lemma scan_outs (orig dir : Vec3f F) (spheres : list (Sphere F)) :
  forall (d : F) (o1 o2 : Outs F),
  fst (scan u orig dir spheres (d, o1)) = fst (scan u' orig dir spheres (d, o2))
  /\ (snd (scan u orig dir spheres (d, o1))
      = snd (scan u' orig dir spheres (d, o2))
      \/ (fst (scan u orig dir spheres (d, o1)) = d /\
          snd (scan u orig dir spheres (d, o1)) = o1 /\
          snd (scan u' orig dir spheres (d, o2)) = o2)).
Proof.
  induction spheres as [|s rest IH]; intros d o1 o2.
  - simpl. auto.
  - unfold scan in *. simpl.
    rewrite (scan_step_unfold u), (scan_step_unfold u').
    destruct (intersection s orig dir) as [t|]; [|apply IH].
    simpl fst. destruct (flt t d); [|apply IH].
    pose proof (scan_uninit orig dir rest (t, record_hit orig dir s t)) as Heq.
    unfold scan in Heq. rewrite Heq. auto.
Qed.

Lemma scene_intersect_uninit (orig dir : Vec3f F) (spheres : list (Sphere F))
  (o1 o2 : Outs F) :
  fst (scene_intersect u orig dir spheres o1)
  = fst (scene_intersect u' orig dir spheres o2) /\
  (fst (scene_intersect u orig dir spheres o1) = true ->
   snd (scene_intersect u orig dir spheres o1)
   = snd (scene_intersect u' orig dir spheres o2)).
Proof.
  unfold scene_intersect.
  destruct (scan_outs orig dir spheres flt_max o1 o2) as [Hd Ho].
  destruct (scan u orig dir spheres (flt_max, o1)) as [d1 o1'].
  destruct (scan u' orig dir spheres (flt_max, o2)) as [d2 o2'].
  simpl in *. subst d2. split; [reflexivity|].
  intros Hfound. destruct Ho as [Ho|[Hd _]]; [exact Ho|].
  subst d1. rewrite flt_max_irrefl in Hfound. discriminate.
Qed.

Lemma shade_light_uninit (dir : Vec3f F) (spheres : list (Sphere F))
  (o : Outs F) (acc : F * F) (light : Light F) :
  shade_light pow u dir spheres o acc light
  = shade_light pow u' dir spheres o acc light.
Proof.
  unfold shade_light, shadow_test.
  destruct (scene_intersect_uninit (biased (o_hit o) (o_N o))
              (normalize (position light - o_hit o)%vec) spheres
              (mkOuts Vec3f_zero Vec3f_zero Vec3f_zero (u_sh_spec u) (u_sh_refl u))
              (mkOuts Vec3f_zero Vec3f_zero Vec3f_zero (u_sh_spec u') (u_sh_refl u')))
    as [Hfst _].
  rewrite Hfst. reflexivity.
Qed.

Lemma shade_lights_uninit (dir : Vec3f F) (spheres : list (Sphere F))
  (lights : list (Light F)) (o : Outs F) :
  shade_lights pow u dir spheres lights o
  = shade_lights pow u' dir spheres lights o.
Proof.
  unfold shade_lights. generalize (of_int 0 : F, of_int 0 : F).
  induction lights as [|l rest IH]; intros acc; [reflexivity|].
  simpl. rewrite shade_light_uninit. apply IH.
Qed.

Lemma cast_ray_fuel_uninit (spheres : list (Sphere F)) (lights : list (Light F))
  (fuel : nat) :
  forall (orig dir : Vec3f F) (depth : Z),
  cast_ray_fuel pow u fuel orig dir spheres lights depth
  = cast_ray_fuel pow u' fuel orig dir spheres lights depth.
Proof.
  induction fuel as [|fuel IH]; intros orig dir depth; [reflexivity|].
  rewrite !cast_ray_fuel_S.
  destruct (depth >? 4)%Z; [reflexivity|].
  destruct (scene_intersect_uninit orig dir spheres
              (mkOuts Vec3f_zero Vec3f_zero Vec3f_zero (u_spec u) (u_refl u))
              (mkOuts Vec3f_zero Vec3f_zero Vec3f_zero (u_spec u') (u_refl u')))
    as [Hfst Hsnd].
  destruct (scene_intersect u orig dir spheres _) as [found o].
  destruct (scene_intersect u' orig dir spheres _) as [found' o'].
  simpl in Hfst, Hsnd. subst found'.
  destruct found; [|reflexivity].
  rewrite <- (Hsnd eq_refl). simpl negb. cbv iota.
  rewrite IH, shade_lights_uninit. reflexivity.
Qed.

Lemma cast_ray_cost_uninit (spheres : list (Sphere F)) (lights : list (Light F))
  (orig dir : Vec3f F) (depth : Z) :
  cast_ray_cost pow u orig dir spheres lights depth
  = cast_ray_cost pow u' orig dir spheres lights depth.
Proof. unfold cast_ray_cost. rewrite cast_ray_fuel_uninit. reflexivity. Qed.

End Determinism.

(** ** The claims about [cast_ray] *)

Lemma f32_flt_max_irrefl : flt (flt_max : float32) flt_max = false.
Proof. reflexivity. Qed.

(** C10.  When [scene_intersect] returns [false] none of its five
    reference parameters has been written: they hold what they held
    before the call.  [cast_ray] does not read them in that case: a
    ray that hits nothing yields the background colour after that one
    call of [scene_intersect], whatever its uninitialised locals
    contain. *)
Theorem scene_intersect_miss_frame (pow : float32 -> float32 -> float32)
  (u : Uninit float32) (orig dir : Vec3f float32)
  (spheres : list (Sphere float32)) (lights : list (Light float32))
  (out0 : Outs float32) (depth : Z) :
  fst (scene_intersect u orig dir spheres out0) = false ->
  snd (scene_intersect u orig dir spheres out0) = out0 /\
  ((depth <= 4)%Z ->
   forall u' : Uninit float32,
     cast_ray_cost pow u' orig dir spheres lights depth = (background, 1%nat)).
Proof.
  intros Hmiss. split.
  - revert Hmiss. unfold scene_intersect.
    pose proof (scan_inv_final u orig dir out0 spheres) as [_ Hcase].
    destruct (scan u orig dir spheres (flt_max, out0)) as [dist out'].
    simpl fst in *. simpl snd in *. intros Hmiss.
    destruct Hcase as [[_ Ho]|(pre & s & post & t & _ & _ & Hd & Hm & _)];
      [exact Ho|].
    subst dist.
    assert (Hx : SFltb t flt_max = false) by exact Hmiss.
    rewrite Hm in Hx. discriminate.
  - intros Hdepth u'. rewrite cast_ray_cost_unfold.
    replace (depth >? 4)%Z with false
      by (symmetry; rewrite Z.gtb_ltb; apply Z.ltb_ge; lia).
    destruct (scene_intersect_uninit f32_flt_max_irrefl u' u orig dir spheres
                (mkOuts Vec3f_zero Vec3f_zero Vec3f_zero (u_spec u') (u_refl u'))
                out0) as [Hfst _].
    rewrite Hmiss in Hfst.
    destruct (scene_intersect u' orig dir spheres _) as [found o].
    simpl in Hfst. subst found. reflexivity.
Qed.

(** A ray along the x axis misses [front_sphere]: the reference
    parameters keep the values they were given. *)
Lemma scene_intersect_miss_frame_witness :
  snd (scene_intersect u_nan (vec3 0 0 0) (vec3 1 0 0) [front_sphere] up_point)
  = up_point /\
  ((0 <= 4)%Z ->
   forall u' : Uninit float32,
     cast_ray_cost pow_example u' (vec3 0 0 0) (vec3 1 0 0) [front_sphere]
       [near_light] 0 = (background, 1%nat)).
Proof.
  apply (scene_intersect_miss_frame pow_example u_nan (vec3 0 0 0) (vec3 1 0 0)
           [front_sphere] [near_light] up_point 0).
  vm_compute. reflexivity.
Defined.





(** C5.  [cast_ray] terminates for every scene, ray and depth: with
    any bound of at least [levels depth] nested calls the model
    returns the result, and [levels depth] is at most 6 from a depth
    that is not negative, five levels that may test intersections and
    the level 5 that returns at once.  Whenever [depth] exceeds 4,
    [cast_ray] makes no intersection test and returns the background
    colour, the binary32 values of 0.2, 0.7 and 0.8.  In all, at most
    [(5 - depth) * (1 + |lights|)] calls of [scene_intersect] are
    made. *)
Theorem cast_ray_terminates (pow : float32 -> float32 -> float32)
  (u : Uninit float32) (spheres : list (Sphere float32))
  (lights : list (Light float32)) (orig dir : Vec3f float32) (depth : Z) :
  (forall fuel : nat, (levels depth <= fuel)%nat ->
     cast_ray_fuel pow u fuel orig dir spheres lights depth
     = Some (cast_ray_cost pow u orig dir spheres lights depth)) /\
  ((0 <= depth)%Z -> (levels depth <= 6)%nat) /\
  ((depth > 4)%Z ->
   cast_ray_cost pow u orig dir spheres lights depth = (background, O) /\
   cast_ray pow u orig dir spheres lights depth
   = mkVec3f (S754_finite false 13421773 (-26))
             (S754_finite false 11744051 (-24))
             (S754_finite false 13421773 (-24))) /\
  (snd (cast_ray_cost pow u orig dir spheres lights depth)
   <= Z.to_nat (5 - depth) * (1 + List.length lights))%nat.
Proof.
  split; [intros fuel Hfuel; apply cast_ray_fuel_total; exact Hfuel|].
  split; [unfold levels; lia|]. split.
  - intros Hdeep. unfold cast_ray. rewrite cast_ray_cost_deep by exact Hdeep.
    split; reflexivity.
  - apply cast_ray_cost_bound. reflexivity.
Qed.

(** ** Determinism of the render *)

Lemma fold_left_pointwise {A B : Type} (f g : A -> B -> A) (l : list B) :
  (forall a b, f a b = g a b) ->
  forall a, fold_left f l a = fold_left g l a.
Proof.
  intros Hfg. induction l as [|b l IH]; intros a; [reflexivity|].
  simpl. rewrite Hfg. apply IH.
Qed.

Lemma vector_set_length {A : Type} (v : list A) (i : nat) (a : A) :
  List.length (vector_set v i a) = List.length v.
Proof.
  revert i. induction v as [|b v IH]; intros [|i]; simpl; auto.
Qed.

Lemma vector_set_same {A : Type} (v : list A) (i : nat) (a : A) :
  (i < List.length v)%nat -> nth_error (vector_set v i a) i = Some a.
Proof.
  revert i. induction v as [|b v IH]; intros [|i] Hi; simpl in *;
    try lia; [reflexivity|].
  apply IH. lia.
Qed.

Lemma vector_set_other {A : Type} (v : list A) (i k : nat) (a : A) :
  i <> k -> nth_error (vector_set v i a) k = nth_error v k.
Proof.
  revert i k. induction v as [|b v IH]; intros [|i] [|k] Hik; simpl;
    try reflexivity; try congruence.
  apply IH. congruence.
Qed.

Section RenderFacts.
Variable pow : float32 -> float32 -> float32.
Variable tan : float64 -> float64.
Variable u : Uninit float32.
Variables width height : Z.
Variable fov : float32.
Variable spheres : list (Sphere float32).
Variable lights : list (Light float32).

Lemma render_pixels_length (l : list Z) (j : Z) :
  forall framebuffer : list (Vec3f float32),
  List.length
    (fold_left (render_pixel pow tan u width height fov spheres lights j) l
       framebuffer)
  = List.length framebuffer.
Proof.
  induction l as [|i l IH]; intros fb; [reflexivity|].
  simpl. rewrite IH. unfold render_pixel. apply vector_set_length.
Qed.

Lemma render_row_length (framebuffer : list (Vec3f float32)) (j : Z) :
  List.length (render_row pow tan u width height fov spheres lights
                 framebuffer j)
  = List.length framebuffer.
Proof.
  unfold render_row. generalize (counter width). intros l.
  revert framebuffer. induction l as [|i l IH]; intros fb; [reflexivity|].
  simpl. rewrite IH. unfold render_pixel. apply vector_set_length.
Qed.

(** The framebuffer keeps its [width * height] entries. *)
Lemma render_length :
  List.length (render pow tan u width height fov spheres lights)
  = Z.to_nat (width * height).
Proof.
  unfold render. generalize (counter height). intros l.
  rewrite <- (repeat_length (Vec3f_zero : Vec3f float32)
                (Z.to_nat (width * height))) at 2.
  generalize (repeat (Vec3f_zero : Vec3f float32) (Z.to_nat (width * height))).
  induction l as [|j l IH]; intros fb; [reflexivity|].
  simpl. rewrite IH. apply render_row_length.
Qed.

(** The inner loop run for the first [n] columns of row [j] writes
    exactly the entries [j * width, ..., j * width + n - 1]. *)
Lemma render_row_upto (j : Z) (n : nat) :
  (0 <= j * width)%Z ->
  forall (framebuffer : list (Vec3f float32)) (k : nat),
  nth_error
    (fold_left (render_pixel pow tan u width height fov spheres lights j)
       (map Z.of_nat (seq 0 n)) framebuffer) k
  = if (Z.to_nat (j * width) <=? k)%nat
       && (k <? Z.to_nat (j * width) + n)%nat
       && (k <? List.length framebuffer)%nat
    then Some (pixel_color pow tan u width height fov spheres lights
                 (Z.of_nat (k - Z.to_nat (j * width))) j)
    else nth_error framebuffer k.
Proof.
  intros Hj. set (base := Z.to_nat (j * width)).
  induction n as [|n IH]; intros fb k.
  - cbn [seq map fold_left].
    destruct (base <=? k)%nat eqn:Hlo; [|reflexivity].
    apply Nat.leb_le in Hlo.
    replace (k <? base + 0)%nat with false
      by (symmetry; apply Nat.ltb_ge; lia).
    reflexivity.
  - rewrite seq_S, map_app, fold_left_app. simpl fold_left.
    unfold render_pixel at 1.
    set (fb' := fold_left _ _ fb) in *.
    assert (Hlen : List.length fb' = List.length fb)
      by apply render_pixels_length.
    replace (Z.to_nat (Z.of_nat n + j * width)) with (base + n)%nat
      by (unfold base; lia).
    destruct (Nat.eq_dec (base + n) k) as [<-|Hne].
    + replace (base <=? base + n)%nat with true
        by (symmetry; apply Nat.leb_le; lia).
      replace (base + n <? base + S n)%nat with true
        by (symmetry; apply Nat.ltb_lt; lia).
      simpl andb.
      destruct (base + n <? List.length fb)%nat eqn:Hin.
      * apply Nat.ltb_lt in Hin. rewrite vector_set_same by lia.
        replace (base + n - base)%nat with n by lia. reflexivity.
      * apply Nat.ltb_ge in Hin.
        assert (Hout : forall v : list (Vec3f float32),
                  (List.length v <= base + n)%nat ->
                  nth_error v (base + n) = None)
          by (intros v Hv; apply nth_error_None; exact Hv).
        rewrite Hout by (rewrite vector_set_length; lia).
        symmetry. apply Hout. exact Hin.
    + rewrite vector_set_other by exact Hne. unfold fb'. rewrite IH.
      replace (k <? base + S n)%nat with (k <? base + n)%nat; [reflexivity|].
      destruct (k <? base + n)%nat eqn:Hk.
      * symmetry. apply Nat.ltb_lt. apply Nat.ltb_lt in Hk. lia.
      * symmetry. apply Nat.ltb_ge. apply Nat.ltb_ge in Hk. lia.
Qed.

(** The outer loop run for the first [m] rows writes exactly the
    entries below [m * width], entry [k] with the colour of pixel
    [(k mod width, k / width)]. *)
Lemma render_rows_upto (m : nat) :
  (0 < width)%Z ->
  forall (framebuffer : list (Vec3f float32)) (k : nat),
  nth_error
    (fold_left (render_row pow tan u width height fov spheres lights)
       (map Z.of_nat (seq 0 m)) framebuffer) k
  = if (k <? m * Z.to_nat width)%nat && (k <? List.length framebuffer)%nat
    then Some (pixel_color pow tan u width height fov spheres lights
                 (Z.of_nat (k mod Z.to_nat width))
                           (Z.of_nat (k / Z.to_nat width)))
    else nth_error framebuffer k.
Proof.
  intros Hw. set (w := Z.to_nat width).
  assert (Hw' : (0 < w)%nat) by (unfold w; lia).
  induction m as [|m IH]; intros fb k.
  - reflexivity.
  - rewrite seq_S, map_app, fold_left_app. simpl fold_left.
    unfold render_row at 1. unfold counter. fold w.
    set (fb' := fold_left _ _ fb) in *.
    assert (Hlen : List.length fb' = List.length fb).
    { unfold fb'. generalize (map Z.of_nat (seq 0 m)). intros l.
      generalize fb. induction l as [|i l IHl]; intros fb0; [reflexivity|].
      simpl. rewrite IHl. apply render_row_length. }
    rewrite render_row_upto by lia.
    replace (Z.to_nat (Z.of_nat m * width)) with (m * w)%nat
      by (unfold w; lia).
    rewrite Hlen. unfold fb'. rewrite IH.
    destruct (k <? List.length fb)%nat eqn:Hin;
      [|rewrite !andb_false_r; reflexivity].
    rewrite !andb_true_r.
    destruct (m * w <=? k)%nat eqn:Hlo; destruct (k <? m * w + w)%nat eqn:Hhi;
      simpl andb.
    + apply Nat.leb_le in Hlo. apply Nat.ltb_lt in Hhi.
      replace (k <? S m * w)%nat with true
        by (symmetry; apply Nat.ltb_lt; lia).
      assert (Hq : (k / w = m)%nat)
        by (symmetry; apply (Nat.div_unique k w m (k - m * w)); lia).
      assert (Hr : (k mod w = k - m * w)%nat)
        by (symmetry; apply (Nat.mod_unique k w m (k - m * w)); lia).
      rewrite Hq, Hr. reflexivity.
    + apply Nat.leb_le in Hlo. apply Nat.ltb_ge in Hhi.
      replace (k <? S m * w)%nat with false
        by (symmetry; apply Nat.ltb_ge; lia).
      replace (k <? m * w)%nat with false
        by (symmetry; apply Nat.ltb_ge; lia).
      reflexivity.
    + apply Nat.leb_gt in Hlo.
      replace (k <? S m * w)%nat with true
        by (symmetry; apply Nat.ltb_lt; lia).
      replace (k <? m * w)%nat with true
        by (symmetry; apply Nat.ltb_lt; lia).
      reflexivity.
    + apply Nat.leb_gt in Hlo. apply Nat.ltb_ge in Hhi. lia.
Qed.

(** Entry [i + j * width] of the rendered framebuffer is the colour
    of pixel [(i, j)]. *)
Lemma render_pixel_at (i j : Z) :
  (0 <= i < width)%Z -> (0 <= j < height)%Z ->
  nth_error (render pow tan u width height fov spheres lights)
    (Z.to_nat (i + j * width))
  = Some (pixel_color pow tan u width height fov spheres lights i j).
Proof.
  intros Hi Hj. unfold render, counter.
  rewrite render_rows_upto by lia.
  rewrite repeat_length.
  assert (Hk : (Z.to_nat (i + j * width)
                = Z.to_nat i + Z.to_nat j * Z.to_nat width)%nat) by nia.
  assert (Hw : (0 < Z.to_nat width)%nat) by lia.
  replace (Z.to_nat (i + j * width) <? Z.to_nat height * Z.to_nat width)%nat
    with true by (symmetry; apply Nat.ltb_lt; nia).
  replace (Z.to_nat (i + j * width) <? Z.to_nat (width * height))%nat
    with true by (symmetry; apply Nat.ltb_lt; nia).
  simpl andb. rewrite Hk.
  assert (Hq : ((Z.to_nat i + Z.to_nat j * Z.to_nat width) / Z.to_nat width
                = Z.to_nat j)%nat)
    by (symmetry;
        apply (Nat.div_unique _ (Z.to_nat width) (Z.to_nat j) (Z.to_nat i));
        lia).
  assert (Hr : ((Z.to_nat i + Z.to_nat j * Z.to_nat width) mod Z.to_nat width
                = Z.to_nat i)%nat)
    by (symmetry;
        apply (Nat.mod_unique _ (Z.to_nat width) (Z.to_nat j) (Z.to_nat i));
        lia).
  rewrite Hq, Hr, !Z2Nat.id by lia. reflexivity.
Qed.

End RenderFacts.

(** C8.  Rendering is deterministic.  The functions of the program
    receive the scene as arguments and return colours, they have no
    other state; what could differ between two runs is the contents of
    the locals declared without an initialiser.  For any two such
    contents [u] and [u'], [cast_ray] returns the same colour for
    every ray and depth, and the framebuffer and the bytes written for
    a scene and render parameters are the same.  Entry [i + j * width]
    of the framebuffer is [cast_ray] on the primary ray of pixel
    [(i, j)] and depends on nothing else. *)
Theorem render_deterministic (pow : float32 -> float32 -> float32)
  (tan : float64 -> float64) (u u' : Uninit float32) (width height : Z)
  (fov : float32) (spheres : list (Sphere float32))
  (lights : list (Light float32)) :
  (forall (orig dir : Vec3f float32) (depth : Z),
     cast_ray pow u orig dir spheres lights depth
     = cast_ray pow u' orig dir spheres lights depth) /\
  render pow tan u width height fov spheres lights
  = render pow tan u' width height fov spheres lights /\
  render_ppm pow tan u width height fov spheres lights
  = render_ppm pow tan u' width height fov spheres lights /\
  (forall i j : Z, (0 <= i < width)%Z -> (0 <= j < height)%Z ->
     nth_error (render pow tan u width height fov spheres lights)
       (Z.to_nat (i + j * width))
     = Some (cast_ray pow u (mkVec3f (of_int 0) (of_int 0) (of_int 0))
               (primary_dir tan width height fov i j) spheres lights 0)).
Proof.
  assert (Hray : forall orig dir depth,
            cast_ray pow u orig dir spheres lights depth
            = cast_ray pow u' orig dir spheres lights depth).
  { intros orig dir depth. unfold cast_ray.
    rewrite (cast_ray_cost_uninit f32_flt_max_irrefl pow u u'). reflexivity. }
  assert (Hfb : render pow tan u width height fov spheres lights
                = render pow tan u' width height fov spheres lights).
  { unfold render. apply fold_left_pointwise. intros fb j.
    unfold render_row. apply fold_left_pointwise. intros fb' i.
    unfold render_pixel. rewrite Hray. reflexivity. }
  split; [exact Hray|]. split; [exact Hfb|]. split.
  - unfold render_ppm. rewrite Hfb. reflexivity.
  - intros i j Hi Hj. apply render_pixel_at; assumption.
Qed.

(** ** The shading formula *)

Section ShadingFormula.
Context {F : Type} `{Arith F}.
Local Open Scope flt_scope.
Variable pow : F -> F -> F.
Variable u : Uninit F.

Hypothesis fmul_comm : forall a b : F, a * b = b * a.

(** The loop over the lights computes the two sums. *)
Lemma shade_lights_sums (dir : Vec3f F) (spheres : list (Sphere F))
  (o : Outs F) (lights : list (Light F)) :
  forall acc : F * F,
  fold_left (shade_light pow u dir spheres o) lights acc
  = (fold_left fadd
       (map (spec_diffuse_term o) (filter (spec_unoccluded u spheres o) lights))
       (fst acc),
     fold_left fadd
       (map (spec_specular_term pow dir o)
          (filter (spec_unoccluded u spheres o) lights))
       (snd acc)).
Proof.
  induction lights as [|l rest IH]; intros acc.
  - destruct acc. reflexivity.
  - cbn [fold_left filter]. rewrite IH.
    assert (Hocc : spec_unoccluded u spheres o l
                   = negb (fst (shadow_test u spheres o l))) by reflexivity.
    rewrite Hocc. unfold shade_light.
    destruct (fst (shadow_test u spheres o l)); simpl negb; cbv iota;
      [reflexivity|].
    cbn [map fold_left fst snd].
    unfold spec_specular_term, spec_diffuse_term, spec_light_dir.
    rewrite (fmul_comm (intensity l) (pow _ _)). reflexivity.
Qed.

End ShadingFormula.

Lemma f32_mul_comm (a b : float32) : (a * b)%flt = (b * a)%flt.
Proof.
  destruct a as [sa|sa| |sa ma ea], b as [sb|sb| |sb mb eb]; simpl;
    try reflexivity; try (rewrite xorb_comm; reflexivity).
  rewrite xorb_comm, Pos.mul_comm, Z.add_comm. reflexivity.
Qed.

(** C4.  On a hit that [cast_ray] shades, at a depth of at most 4, the
    returned colour is the formula
    [surfaceColor * totalDiffuse * (1 - reflectivity)
     + white * totalSpecular * 0.6 + reflectedColor * reflectivity]
    where the totals sum, over the lights whose shadow test reports no
    hit, [intensity * max(0, lightDir . normal)] and
    [intensity * max(0, reflect(-lightDir, normal) . rayDir)^spec],
    the reflected colour is [cast_ray] on the reflected ray at
    [depth + 1], and [reflect(I, N) = I - N * 2 * (I . N)]. *)
Theorem cast_ray_shading_formula (pow : float32 -> float32 -> float32)
  (u : Uninit float32) (orig dir : Vec3f float32)
  (spheres : list (Sphere float32)) (lights : list (Light float32))
  (depth : Z) (o : Outs float32) :
  (depth <= 4)%Z ->
  scene_intersect u orig dir spheres
    (mkOuts Vec3f_zero Vec3f_zero Vec3f_zero (u_spec u) (u_refl u))
  = (true, o) ->
  cast_ray pow u orig dir spheres lights depth
  = spec_final_color (o_color o)
      (spec_total_diffuse u spheres lights o)
      (spec_total_specular pow u dir spheres lights o)
      (o_refl o)
      (cast_ray pow u (o_hit o + o_N o * of_lit 1 1000)%vec
         (normalize (reflect dir (o_N o))) spheres lights (depth + 1)) /\
  (forall I N : Vec3f float32,
     reflect I N = (I - N * of_int 2 * dot I N)%vec).
Proof.
  intros Hdepth Hhit. split; [|reflexivity].
  unfold cast_ray. rewrite cast_ray_cost_unfold.
  replace (depth >? 4)%Z with false
    by (symmetry; rewrite Z.gtb_ltb; apply Z.ltb_ge; lia).
  rewrite Hhit. simpl negb. cbv iota.
  change (biased (o_hit o) (o_N o)) with (o_hit o + o_N o * of_lit 1 1000)%vec.
  destruct (cast_ray_cost pow u _ _ spheres lights (depth + 1)) as [rc n].
  simpl fst. unfold shade_lights.
  rewrite (shade_lights_sums pow u f32_mul_comm). reflexivity.
Qed.

(** The ray from the origin down the z axis hits [front_sphere]. *)
Lemma cast_ray_shading_formula_witness :
  let o := snd (scene_intersect u_nan (vec3 0 0 0) (vec3 0 0 (-1))
                  [front_sphere]
                  (mkOuts Vec3f_zero Vec3f_zero Vec3f_zero S754_nan S754_nan)) in
  cast_ray pow_example u_nan (vec3 0 0 0) (vec3 0 0 (-1)) [front_sphere]
    [near_light] 0
  = spec_final_color (o_color o)
      (spec_total_diffuse u_nan [front_sphere] [near_light] o)
      (spec_total_specular pow_example u_nan (vec3 0 0 (-1)) [front_sphere]
         [near_light] o)
      (o_refl o)
      (cast_ray pow_example u_nan (o_hit o + o_N o * of_lit 1 1000)%vec
         (normalize (reflect (vec3 0 0 (-1)) (o_N o))) [front_sphere]
         [near_light] (0 + 1)) /\
  (forall I N : Vec3f float32,
     reflect I N = (I - N * of_int 2 * dot I N)%vec).
Proof.
  intros o.
  apply (cast_ray_shading_formula pow_example u_nan (vec3 0 0 0)
           (vec3 0 0 (-1)) [front_sphere] [near_light] 0 o).
  - lia.
  - vm_compute. reflexivity.
Defined.

(** ** A ray that starts inside a sphere *)


(** ** Order of finite binary32 numbers *)

(** Two positive finite numbers compare by exponent first and by
    mantissa second. *)
Lemma SFltb_finite_inv (m1 m2 : positive) (e1 e2 : Z) :
  SFltb (S754_finite false m1 e1) (S754_finite false m2 e2) = true ->
  (e1 < e2 \/ (e1 = e2 /\ Zpos m1 < Zpos m2))%Z.
Proof.
  unfold SFltb, SFcompare.
  destruct (Z.compare_spec e1 e2) as [Heq|Hlt|Hgt]; intros H;
    [|left; exact Hlt|discriminate].
  right. split; [exact Heq|].
  change (Pos.compare_cont Eq m1 m2) with (Pos.compare m1 m2) in H.
  destruct (Pos.compare_spec m1 m2) as [Hm|Hm|Hm]; try discriminate.
  exact Hm.
Qed.

(** ** Vector operations and the unguarded [normalize] *)

Lemma f32_one : (of_int 1 : float32) = S754_finite false 8388608 (-23).
Proof. reflexivity. Qed.

(** A finite number times the reciprocal of a zero is not finite. *)
Lemma scale_by_inverse_zero (a mag : float32) :
  f32_finite a = true -> is_zero mag = true ->
  f32_finite (a * (of_int 1 / mag))%flt = false.
Proof.
  rewrite f32_one.
  destruct mag as [s| | |]; try discriminate.
  destruct a as [sa| | |sa ma ea]; try discriminate; reflexivity.
Qed.

(** C9.  The vector operations are functions of their arguments, with
    a result on every input: [add], [sub] and [scale] work component by
    component and [dot] sums the three products.  [normalize] scales
    by [1.f / mag] without testing [mag].  On a zero vector the
    magnitude is zero, its reciprocal is infinite, and every component
    of the result is NaN; more generally, whenever the computed
    magnitude of a finite vector is zero no component of the result is
    finite.  A value is returned, no error is signalled. *)
Theorem normalize_zero_vector :
  (forall (a b : Vec3f float32) (k : float32),
     Vec3f_add a b = mkVec3f (x a + x b)%flt (y a + y b)%flt (z a + z b)%flt /\
     Vec3f_sub a b = mkVec3f (x a - x b)%flt (y a - y b)%flt (z a - z b)%flt /\
     Vec3f_scale a k = mkVec3f (x a * k)%flt (y a * k)%flt (z a * k)%flt /\
     dot a b = (x a * x b + y a * y b + z a * z b)%flt /\
     normalize a = Vec3f_scale a (of_int 1 / fsqrt (dot a a))%flt) /\
  (forall sx sy sz : bool,
     let v : Vec3f float32 :=
       mkVec3f (S754_zero sx) (S754_zero sy) (S754_zero sz) in
     fsqrt (dot v v) = S754_zero false /\
     (of_int 1 / fsqrt (dot v v))%flt = S754_infinity false /\
     normalize v = mkVec3f S754_nan S754_nan S754_nan) /\
  (forall v : Vec3f float32,
     Vec3f_finite v = true -> is_zero (fsqrt (dot v v)) = true ->
     f32_finite (x (normalize v)) = false /\
     f32_finite (y (normalize v)) = false /\
     f32_finite (z (normalize v)) = false).
Proof.
  split; [|split].
  - intros a b k. repeat split.
  - intros sx sy sz v. subst v.
    destruct sx, sy, sz; repeat split.
  - intros v Hfin Hzero. unfold Vec3f_finite in Hfin.
    apply andb_true_iff in Hfin. destruct Hfin as [Hfin Hz].
    apply andb_true_iff in Hfin. destruct Hfin as [Hx Hy].
    unfold normalize, Vec3f_scale. cbn [x y z].
    repeat split; apply scale_by_inverse_zero; assumption.
Qed.

(** ** The bytes of [out.ppm] *)

Lemma SFltb_leb (a b : float32) : SFltb a b = true -> SFleb a b = true.
Proof.
  unfold SFltb, SFleb. destruct (SFcompare a b) as [[| |]|];
    intros; try discriminate; reflexivity.
Qed.

Lemma positive_below_infinity (c bound : float32) :
  SFltb (S754_zero false) c = true -> SFltb c bound = true ->
  exists m e, c = S754_finite false m e.
Proof.
  destruct c as [s|s| |s m e]; try destruct s; unfold SFltb at 1;
    cbn [SFcompare]; intros Hpos Hlt; try discriminate.
  - destruct bound as [sb|sb| |sb mb eb]; try destruct sb; discriminate.
  - exists m, e. reflexivity.
Qed.

(** The clamp yields 0, 1, or the channel itself when that lies
    strictly between them; a NaN channel is clamped to 1. *)
Lemma clamp01_cases (c : float32) :
  clamp01 c = of_int 0 \/
  clamp01 c = of_int 1 \/
  (clamp01 c = c /\ (of_int 0 <? c)%flt = true /\ (c <? of_int 1)%flt = true /\
   exists m e, c = S754_finite false m e).
Proof.
  unfold clamp01, fmax, fmin.
  destruct ((c <? of_int 1)%flt) eqn:Hone.
  - destruct ((of_int 0 <? c)%flt) eqn:Hzero; [|left; reflexivity].
    right. right. repeat split.
    exact (positive_below_infinity c (of_int 1) Hzero Hone).
  - right. left.
    replace ((of_int 0 <? of_int 1)%flt) with true
      by (vm_compute; reflexivity).
    reflexivity.
Qed.

Lemma clamp01_range (c : float32) :
  SFleb (of_int 0) (clamp01 c) = true /\ SFleb (clamp01 c) (of_int 1) = true.
Proof.
  destruct (clamp01_cases c) as [Hc|[Hc|[Hc [Hzero [Hone _]]]]]; rewrite Hc.
  - split; vm_compute; reflexivity.
  - split; vm_compute; reflexivity.
  - split; apply SFltb_leb; assumption.
Qed.

(** The product of 255 and a clamped channel is not negative. *)
Lemma scaled_channel_sign (c : float32) :
  match (of_int 255 * clamp01 c)%flt with
  | S754_zero s | S754_infinity s | S754_finite s _ _ => s = false
  | S754_nan => True
  end.
Proof.
  destruct (clamp01_cases c) as [Hc|[Hc|[Hc (_ & _ & m & e & Hme)]]];
    rewrite Hc.
  - vm_compute. reflexivity.
  - vm_compute. reflexivity.
  - rewrite Hme.
    change (of_int 255 : float32) with (S754_finite false 16711680 (-16)).
    change (@fmul float32 float32_arith) with (SFmul prec32 emax32).
    cbv beta iota delta [SFmul]. apply binary_round_aux_sign.
Qed.

(** [f32_trunc] is the integer part: on a finite number that is not
    negative it is the largest integer not above the exact value. *)
Lemma f32_trunc_floor (m : positive) (e : Z) :
  (inject_Z (f32_trunc (S754_finite false m e))
   <= f32_exact (S754_finite false m e))%Q /\
  (f32_exact (S754_finite false m e)
   < inject_Z (f32_trunc (S754_finite false m e)) + 1)%Q.
Proof.
  unfold f32_trunc, f32_exact. cbn [cond_Zopp].
  destruct e as [|p|p].
  - simpl Qpower. rewrite Z.shiftl_0_r, Qmult_1_r. split.
    + apply Qle_refl.
    + change 1%Q with (inject_Z 1).
      rewrite <- (inject_Z_plus (Zpos m) 1), <- Zlt_Qlt. lia.
  - rewrite Z.shiftl_mul_pow2 by lia.
    rewrite <- (Zpower_Qpower 2 (Zpos p)) by lia.
    rewrite <- inject_Z_mult. split.
    + apply Qle_refl.
    + change 1%Q with (inject_Z 1).
      rewrite <- (inject_Z_plus _ 1), <- Zlt_Qlt. lia.
  - rewrite Z.shiftr_div_pow2 by lia.
    change (Zneg p) with (- Zpos p)%Z. rewrite Qpower_opp.
    rewrite <- (Zpower_Qpower 2 (Zpos p)) by lia.
    assert (Hd : (0 < 2 ^ Zpos p)%Z) by (apply Z.pow_pos_nonneg; lia).
    assert (HdQ : (0 < inject_Z (2 ^ Zpos p))%Q)
      by (rewrite <- (Zlt_Qlt 0); exact Hd).
    split.
    + apply Qle_shift_div_l; [exact HdQ|].
      rewrite <- inject_Z_mult, <- Zle_Qle.
      rewrite Z.mul_comm. apply Z.mul_div_le. exact Hd.
    + apply Qlt_shift_div_r; [exact HdQ|].
      change 1%Q with (inject_Z 1).
      rewrite <- (inject_Z_plus _ 1), <- inject_Z_mult, <- Zlt_Qlt.
      rewrite Z.mul_comm. apply Z.mul_succ_div_gt. exact Hd.
Qed.

Lemma string_append_assoc (a b c : string) :
  ((a ++ b) ++ c)%string = (a ++ (b ++ c))%string.
Proof. induction a as [|ch a IH]; simpl; [reflexivity|rewrite IH; reflexivity]. Qed.

Lemma string_append_length (a b : string) :
  String.length (a ++ b)%string = (String.length a + String.length b)%nat.
Proof. induction a as [|ch a IH]; simpl; [reflexivity|rewrite IH; reflexivity]. Qed.

Lemma ppm_pixels_length (framebuffer : list (Vec3f float32)) :
  String.length (ppm_pixels framebuffer) = (3 * List.length framebuffer)%nat.
Proof.
  induction framebuffer as [|c rest IH]; [reflexivity|].
  simpl. rewrite IH. lia.
Qed.

(** ** Rounding of the scaled channel *)

Section ChannelRounding.
Local Open Scope Z_scope.

Lemma fexp32_eq (k : Z) : fexp prec32 emax32 k = fexp32 k.
Proof. reflexivity. Qed.

Ltac fold_fexp32 :=
  repeat match goal with
  | |- context [fexp prec32 emax32 ?k] =>
    change (fexp prec32 emax32 k) with (fexp32 k)
  | H : context [fexp prec32 emax32 ?k] |- _ =>
    change (fexp prec32 emax32 k) with (fexp32 k) in H
  end.

Lemma digits2_pos_size (p : positive) : digits2_pos p = Pos.size p.
Proof. induction p as [p IH|p IH|]; simpl; try rewrite IH; reflexivity. Qed.

Lemma Zdigits2_upper (q k : Z) : 0 <= k -> 0 <= q < 2 ^ k -> Zdigits2 q <= k.
Proof.
  intros Hk [Hq0 Hq]. destruct q as [|p|p]; simpl; [lia| |lia].
  rewrite digits2_pos_size.
  pose proof (Pos.size_le p) as Hs.
  assert (Hs' : 2 ^ Zpos (Pos.size p) <= 2 * Zpos p).
  { change (2 * Zpos p) with (Zpos p~0). rewrite <- Pos2Z.inj_pow.
    apply Pos2Z.pos_le_pos. exact Hs. }
  assert (Hlt : 2 ^ Zpos (Pos.size p) < 2 ^ (k + 1)).
  { rewrite Z.pow_add_r by lia. lia. }
  apply Z.pow_lt_mono_r_iff in Hlt; lia.
Qed.

Lemma digits2_pos_bounds (p : positive) :
  2 ^ (Zpos (digits2_pos p) - 1) <= Zpos p < 2 ^ Zpos (digits2_pos p).
Proof.
  rewrite digits2_pos_size. split.
  - pose proof (Pos.size_le p) as Hs.
    assert (Hs' : 2 ^ Zpos (Pos.size p) <= 2 * Zpos p).
    { change (2 * Zpos p) with (Zpos p~0). rewrite <- Pos2Z.inj_pow.
      apply Pos2Z.pos_le_pos. exact Hs. }
    replace (Zpos (Pos.size p)) with (Zpos (Pos.size p) - 1 + 1) in Hs' by lia.
    rewrite Z.pow_add_r in Hs' by lia. lia.
  - pose proof (Pos.size_gt p) as Hs.
    rewrite <- Pos2Z.inj_pow. apply Pos2Z.pos_lt_pos. exact Hs.
Qed.

Lemma shr_1_m (mrs : shr_record) :
  0 <= shr_m mrs -> shr_m (shr_1 mrs) = shr_m mrs / 2.
Proof.
  destruct mrs as [m r s]. simpl. intros Hm.
  destruct m as [|[p|p|]|p]; simpl; try lia; try reflexivity.
  - rewrite Pos2Z.inj_xI.
    apply (Z.div_unique_pos _ 2 (Zpos p) 1); lia.
  - rewrite Pos2Z.inj_xO.
    apply (Z.div_unique_pos _ 2 (Zpos p) 0); lia.
Qed.

Lemma iter_shr_1_m (p : positive) :
  forall mrs : shr_record, 0 <= shr_m mrs ->
  shr_m (SpecFloat.iter_pos shr_1 p mrs) = shr_m mrs / 2 ^ Zpos p.
Proof.
  induction p as [p IH|p IH|]; intros mrs Hm; simpl SpecFloat.iter_pos.
  - assert (Hp : 0 < 2 ^ Zpos p) by (apply Z.pow_pos_nonneg; lia).
    assert (Hpow : 2 ^ Zpos p~1 = 2 * (2 ^ Zpos p * 2 ^ Zpos p)).
    { replace (Zpos p~1) with (1 + (Zpos p + Zpos p)) by lia.
      rewrite !Z.pow_add_r by lia. reflexivity. }
    assert (H1 : 0 <= shr_m (shr_1 mrs))
      by (rewrite shr_1_m by exact Hm; apply Z.div_pos; lia).
    assert (H2 : 0 <= shr_m (SpecFloat.iter_pos shr_1 p (shr_1 mrs)))
      by (rewrite IH by exact H1; apply Z.div_pos; lia).
    rewrite IH, IH, shr_1_m by assumption.
    rewrite Hpow, !Z.div_div by lia. reflexivity.
  - assert (Hp : 0 < 2 ^ Zpos p) by (apply Z.pow_pos_nonneg; lia).
    assert (Hpow : 2 ^ Zpos p~0 = 2 ^ Zpos p * 2 ^ Zpos p).
    { replace (Zpos p~0) with (Zpos p + Zpos p) by lia.
      rewrite !Z.pow_add_r by lia. reflexivity. }
    assert (H2 : 0 <= shr_m (SpecFloat.iter_pos shr_1 p mrs))
      by (rewrite IH by exact Hm; apply Z.div_pos; lia).
    rewrite IH, IH by assumption.
    rewrite Hpow, !Z.div_div by lia. reflexivity.
  - rewrite shr_1_m by exact Hm. reflexivity.
Qed.

Lemma shr_spec (mrs : shr_record) (e n : Z) :
  0 <= shr_m mrs ->
  shr_m (fst (shr mrs e n)) = shr_m mrs / 2 ^ Z.max 0 n /\
  snd (shr mrs e n) = e + Z.max 0 n.
Proof.
  intros Hm. destruct n as [|p|p]; simpl shr; cbn [fst snd].
  - rewrite Z.max_id. simpl. rewrite Z.div_1_r. lia.
  - rewrite Z.max_r by lia. split; [apply iter_shr_1_m; exact Hm|reflexivity].
  - rewrite Z.max_l by lia. simpl. rewrite Z.div_1_r. lia.
Qed.

Lemma round_nearest_even_bounds (m : Z) (l : location) :
  m <= round_nearest_even m l <= m + 1.
Proof.
  destruct l as [|[| |]]; simpl; try lia. destruct (Z.even m); lia.
Qed.

Lemma shr_record_of_loc_m (m : Z) (l : location) :
  shr_m (shr_record_of_loc m l) = m.
Proof. destruct l as [|[| |]]; reflexivity. Qed.

(** The two shifts and the rounding of [binary_round_aux] on an exact
    input that is not negative: the mantissa is divided by a power of
    two, rounded up by at most one, and divided again. *)
Lemma binary_round_aux_form (s : bool) (mx ex : Z) :
  0 <= mx ->
  exists m1 n2 : Z,
    mx / 2 ^ Z.max 0 (fexp32 (Zdigits2 mx + ex) - ex) <= m1 /\
    m1 <= mx / 2 ^ Z.max 0 (fexp32 (Zdigits2 mx + ex) - ex) + 1 /\
    n2 = Z.max 0 (fexp32 (Zdigits2 m1
                           + (ex + Z.max 0 (fexp32 (Zdigits2 mx + ex) - ex)))
                  - (ex + Z.max 0 (fexp32 (Zdigits2 mx + ex) - ex))) /\
    binary_round_aux prec32 emax32 s mx ex loc_Exact =
    match m1 / 2 ^ n2 with
    | Z0 => S754_zero s
    | Zpos m =>
      if ex + Z.max 0 (fexp32 (Zdigits2 mx + ex) - ex) + n2 <=? 104
      then S754_finite s m (ex + Z.max 0 (fexp32 (Zdigits2 mx + ex) - ex) + n2)
      else S754_infinity s
    | Zneg _ => S754_nan
    end.
Proof.
  intros Hmx. unfold binary_round_aux, shr_fexp. fold_fexp32.
  set (n1 := fexp32 (Zdigits2 mx + ex) - ex).
  destruct (shr_spec (shr_record_of_loc mx loc_Exact) ex n1) as [Hm' He'];
    [rewrite shr_record_of_loc_m; exact Hmx|].
  rewrite shr_record_of_loc_m in Hm'.
  destruct (shr (shr_record_of_loc mx loc_Exact) ex n1) as [mrs' e'].
  cbn [fst snd] in Hm', He'. subst e'.
  set (m1 := round_nearest_even (shr_m mrs') (loc_of_shr_record mrs')).
  pose proof (round_nearest_even_bounds (shr_m mrs') (loc_of_shr_record mrs'))
    as Hm1. fold m1 in Hm1. rewrite Hm' in Hm1.
  assert (Hm1pos : 0 <= m1).
  { assert (0 <= mx / 2 ^ Z.max 0 n1)
      by (apply Z.div_pos; [lia|apply Z.pow_pos_nonneg; lia]). lia. }
  fold_fexp32.
  set (n2 := fexp32 (Zdigits2 m1 + (ex + Z.max 0 n1)) - (ex + Z.max 0 n1)).
  destruct (shr_spec (shr_record_of_loc m1 loc_Exact) (ex + Z.max 0 n1) n2)
    as [Hm'' He''];
    [rewrite shr_record_of_loc_m; exact Hm1pos|].
  rewrite shr_record_of_loc_m in Hm''.
  destruct (shr (shr_record_of_loc m1 loc_Exact) (ex + Z.max 0 n1) n2)
    as [mrs'' e''].
  cbn [fst snd] in Hm'', He''. subst e''.
  exists m1, (Z.max 0 n2). rewrite Hm''.
  split; [lia|]. split; [lia|]. split; reflexivity.
Qed.

Lemma pow2_split (a b : Z) : 0 <= a -> 0 <= b -> 2 ^ (a + b) = 2 ^ a * 2 ^ b.
Proof. intros. apply Z.pow_add_r; assumption. Qed.

(** The product of 255 and a valid binary32 number between 0 and 1 is
    finite and its integer part is at most 255. *)
Lemma scaled_channel_bound (m : positive) (e : Z) :
  valid_binary prec32 emax32 (S754_finite false m e) = true ->
  SFltb (S754_finite false m e) (S754_finite false 8388608 (-23)) = true ->
  f32_finite (SFmul prec32 emax32 (S754_finite false 16711680 (-16))
                (S754_finite false m e)) = true /\
  0 <= f32_trunc (SFmul prec32 emax32 (S754_finite false 16711680 (-16))
                    (S754_finite false m e)) <= 255.
Proof.
  intros Hvalid Hlt.
  (* what validity and [c < 1] say about [m] and [e] *)
  unfold valid_binary, bounded, canonical_mantissa in Hvalid.
  apply andb_true_iff in Hvalid. destruct Hvalid as [Hcan _].
  apply Z.eqb_eq in Hcan. fold_fexp32. unfold fexp32 in Hcan.
  pose proof (digits2_pos_bounds m) as [Hlow Hup].
  set (d := Zpos (digits2_pos m)) in *.
  assert (H24 : 2 ^ 24 = 16777216) by reflexivity.
  assert (H23 : 2 ^ 23 = 8388608) by reflexivity.
  assert (Hd : d <= 24) by lia.
  assert (Hm24 : Zpos m < 2 ^ 24).
  { apply Z.lt_le_trans with (2 ^ d); [exact Hup|].
    apply Z.pow_le_mono_r; lia. }
  assert (He : e <= -24).
  { apply SFltb_finite_inv in Hlt. destruct Hlt as [Hlt|[Heq Hm]]; [lia|].
    assert (d = 24) by lia.
    replace (d - 1) with 23 in Hlow by lia. lia. }
  clear Hcan Hlow Hup Hd Hlt d.
  (* the rounding *)
  change (SFmul prec32 emax32 (S754_finite false 16711680 (-16))
            (S754_finite false m e))
    with (binary_round_aux prec32 emax32 false (Zpos (16711680 * m))
            (-16 + e) loc_Exact).
  destruct (binary_round_aux_form false (Zpos (16711680 * m)) (-16 + e))
    as (m1 & n2 & Hm1lo & Hm1hi & Hn2 & Heq); [lia|].
  rewrite Heq. clear Heq.
  rewrite Pos2Z.inj_mul in *.
  set (mx := 16711680 * Zpos m) in *.
  set (ex := -16 + e) in *.
  assert (H48 : 2 ^ 48 = 281474976710656) by reflexivity.
  assert (H49 : 2 ^ 49 = 562949953421312) by reflexivity.
  assert (Hmx : 0 <= mx < 2 ^ 48) by (unfold mx; lia).
  pose proof (Zdigits2_upper mx 48 ltac:(lia) Hmx) as Hdig.
  set (n1 := Z.max 0 (fexp32 (Zdigits2 mx + ex) - ex)) in *.
  assert (Hn1 : 0 <= n1) by (unfold n1; lia).
  assert (He' : ex + n1 <= -16) by (unfold n1, fexp32, ex; lia).
  set (A := 2 ^ (- (ex + n1))).
  assert (HA : 0 < A) by (apply Z.pow_pos_nonneg; lia).
  assert (Hp1 : 0 < 2 ^ n1) by (apply Z.pow_pos_nonneg; lia).
  (* the exact product is below 255 *)
  assert (Hval : mx < 2 ^ n1 * (255 * A)).
  { assert (Hsplit : 2 ^ n1 * A = 2 ^ (- ex)).
    { unfold A. rewrite <- pow2_split by lia. f_equal. lia. }
    replace (2 ^ n1 * (255 * A)) with (255 * (2 ^ n1 * A)) by ring.
    rewrite Hsplit.
    replace (- ex) with (16 + (- e)) by (unfold ex; lia).
    rewrite pow2_split by lia. change (2 ^ 16) with 65536.
    assert (Hme : 2 ^ 24 <= 2 ^ (- e)) by (apply Z.pow_le_mono_r; lia).
    unfold mx. lia. }
  assert (Hm' : mx / 2 ^ n1 < 255 * A)
    by (apply Z.div_lt_upper_bound; assumption).
  assert (Hm'0 : 0 <= mx / 2 ^ n1) by (apply Z.div_pos; lia).
  assert (Hm'le : mx / 2 ^ n1 <= mx)
    by (apply Z.div_le_upper_bound; [lia|nia]).
  assert (Hm1 : 0 <= m1 < 2 ^ 49) by lia.
  pose proof (Zdigits2_upper m1 49 ltac:(lia) Hm1) as Hdig1.
  assert (Hn2' : 0 <= n2) by lia.
  assert (He'' : ex + n1 + n2 <= 104) by (unfold fexp32 in Hn2; lia).
  assert (Hp2 : 0 < 2 ^ n2) by (apply Z.pow_pos_nonneg; lia).
  assert (Hq0 : 0 <= m1 / 2 ^ n2) by (apply Z.div_pos; lia).
  assert (Hqmul : 2 ^ n2 * (m1 / 2 ^ n2) <= m1)
    by (apply Z.mul_div_le; exact Hp2).
  destruct (m1 / 2 ^ n2) as [|q|q] eqn:Hq; [split; [reflexivity|simpl; lia]| |lia].
  replace (ex + n1 + n2 <=? 104) with true by (symmetry; apply Z.leb_le; lia).
  split; [reflexivity|].
  unfold f32_trunc. cbn [cond_Zopp].
  destruct (ex + n1 + n2) as [|p|p] eqn:Hexp.
  - rewrite Z.shiftl_0_r.
    assert (Hn2A : 2 ^ n2 = A) by (unfold A; f_equal; lia).
    rewrite Hn2A in Hqmul. nia.
  - rewrite Z.shiftl_mul_pow2 by lia.
    assert (Hn2A : 2 ^ n2 = 2 ^ Zpos p * A).
    { unfold A. rewrite <- pow2_split by lia. f_equal. lia. }
    rewrite Hn2A in Hqmul.
    assert (Hpp : 0 < 2 ^ Zpos p) by (apply Z.pow_pos_nonneg; lia).
    split; [nia|].
    apply (Z.mul_le_mono_pos_r _ _ A HA). nia.
  - rewrite Z.shiftr_div_pow2 by lia.
    assert (Hpp : 0 < 2 ^ Zpos p) by (apply Z.pow_pos_nonneg; lia).
    assert (HAsplit : A = 2 ^ n2 * 2 ^ Zpos p).
    { unfold A. rewrite <- pow2_split by lia. f_equal. lia. }
    split; [apply Z.div_pos; lia|].
    apply Z.div_le_upper_bound; [exact Hpp|].
    assert (2 ^ n2 * Zpos q <= 255 * (2 ^ n2 * 2 ^ Zpos p))
      by (rewrite <- HAsplit; lia).
    apply (Z.mul_le_mono_pos_l _ _ (2 ^ n2) Hp2). lia.
Qed.

End ChannelRounding.

(** C7.  Each byte written for a colour channel is the product
    [255 * clamp(channel, 0, 1)], computed in binary32, truncated
    towards zero and narrowed to eight bits: the clamp lies between 0
    and 1 for every channel value (NaN included), the truncation is
    the largest integer not above the product and not the nearest one
    (0.5 gives 127, 0.999 gives 254), and the byte is below 256.  For
    every channel that is a valid binary32 number the product is
    finite and its integer part is at most 255, so the narrowing
    changes nothing.  The file is the header, P6, the width and the
    height in decimal and 255, each followed by the separators of the
    source, and then three bytes for every framebuffer entry in order;
    the rendered framebuffer has [width * height] entries.  The header
    is given byte by byte: the letters P and 6, the line feed (byte
    10), the decimal digits of the width, a space (byte 32), the
    decimal digits of the height, a line feed, the digits 2, 5, 5 and
    a line feed; for 800 by 600 these are fifteen bytes, listed by
    their codes.  The digits written for an [int] read back as that
    [int]. *)
Theorem ppm_bytes_truncate :
  (forall c : float32,
     let p := (of_int 255 * clamp01 c)%flt in
     SFleb (of_int 0) (clamp01 c) = true /\
     SFleb (clamp01 c) (of_int 1) = true /\
     channel_byte c = (f32_trunc p mod 256)%Z /\
     (0 <= channel_byte c < 256)%Z /\
     (f32_finite p = true ->
      (inject_Z (f32_trunc p) <= f32_exact p)%Q /\
      (f32_exact p < inject_Z (f32_trunc p) + 1)%Q) /\
     (valid_binary prec32 emax32 c = true ->
      f32_finite p = true /\ channel_byte c = f32_trunc p)) /\
  (channel_byte (of_lit 5 10) = 127%Z /\
   channel_byte (of_lit 999 1000) = 254%Z /\
   channel_byte (of_int 1) = 255%Z /\
   channel_byte (of_int (-3)) = 0%Z /\
   channel_byte S754_nan = 255%Z) /\
  (forall (width height : Z) (framebuffer : list (Vec3f float32)),
     ppm_file width height framebuffer
     = ("P6" ++ newline ++ put_int width ++ " " ++ put_int height ++ newline
        ++ "255" ++ newline ++ ppm_pixels framebuffer)%string /\
     String.length (ppm_pixels framebuffer)
     = (3 * List.length framebuffer)%nat) /\
  (forall (c : Vec3f float32) (rest : list (Vec3f float32)),
     ppm_pixels (c :: rest)
     = String (ascii_of_N (Z.to_N (channel_byte (x c))))
         (String (ascii_of_N (Z.to_N (channel_byte (y c))))
            (String (ascii_of_N (Z.to_N (channel_byte (z c))))
               (ppm_pixels rest)))) /\
  (put_int 800 = "800"%string /\ put_int 600 = "600"%string) /\
  (forall (pow : float32 -> float32 -> float32) (tan : float64 -> float64)
          (u : Uninit float32) (width height : Z) (fov : float32)
          (spheres : list (Sphere float32)) (lights : list (Light float32)),
     String.length
       (ppm_pixels (render pow tan u width height fov spheres lights))
     = (3 * Z.to_nat (width * height))%nat) /\
  newline = String "010"%char EmptyString /\
  (forall width height : Z,
     ppm_header width height
     = String "P"%char (String "6"%char (String "010"%char
         (put_int width ++ String " "%char
            (put_int height ++ String "010"%char
               (String "2"%char (String "5"%char (String "5"%char
                  (String "010"%char EmptyString)))))))))%string /\
  map nat_of_ascii (list_ascii_of_string (ppm_header 800 600))
  = [80; 54; 10; 56; 48; 48; 32; 54; 48; 48; 10; 50; 53; 53; 10]%nat /\
  (forall n : Z,
     option_map Z.of_int (NilEmpty.int_of_string (put_int n)) = Some n).
Proof.
  split; [|split; [|split; [|split; [|split; [|split; [|split; [|split;
    [|split]]]]]]]].
  - intros c p.
    destruct (clamp01_range c) as [Hlo Hhi].
    split; [exact Hlo|]. split; [exact Hhi|]. split; [reflexivity|].
    split; [apply Z.mod_pos_bound; lia|].
    split.
    + intros Hfin. pose proof (scaled_channel_sign c) as Hsign.
      fold p in Hsign.
      destruct p as [s|s| |s m e]; try discriminate.
      * split; [apply Qle_refl|reflexivity].
      * subst s. apply f32_trunc_floor.
    + intros Hvalid. unfold channel_byte. fold p. subst p.
      destruct (clamp01_cases c) as [Hc|[Hc|[Hc (_ & Hone & m & e & Hme)]]];
        rewrite Hc.
      * split; vm_compute; reflexivity.
      * split; vm_compute; reflexivity.
      * subst c.
        destruct (scaled_channel_bound m e Hvalid Hone) as [Hfin Hrange].
        split; [exact Hfin|].
        apply Z.mod_small.
        change (@fmul float32 float32_arith) with (SFmul prec32 emax32).
        change (of_int 255 : float32) with (S754_finite false 16711680 (-16)).
        lia.
  - repeat split; vm_compute; reflexivity.
  - intros width height framebuffer. split.
    + unfold ppm_file, ppm_header.
      rewrite !string_append_assoc. reflexivity.
    + apply ppm_pixels_length.
  - intros c rest. reflexivity.
  - split; reflexivity.
  - intros pow tan u width height fov spheres lights.
    rewrite ppm_pixels_length, render_length. reflexivity.
  - reflexivity.
  - intros width height. unfold ppm_header. reflexivity.
  - vm_compute. reflexivity.
  - intros n. unfold put_int. rewrite NilEmpty.isi. simpl.
    rewrite DecimalZ.of_to. reflexivity.
Qed.

(** ** Rounding to binary32 on integer codes *)

(** [binary_round_aux] is [round_model] on the code of its shift
    record; on codes the shift and the rounding are monotone, which
    makes the rounded sum, difference and product monotone in the
    exact value. *)

Section RoundingCodes.
Local Open Scope Z_scope.

Ltac div_mod_case :=
  repeat match goal with
  | |- context [?c mod 4 =? ?k] => destruct (Z.eqb_spec (c mod 4) k)
  | |- context [?c mod 4 <=? ?k] => destruct (Z.leb_spec (c mod 4) k)
  end;
  Z.div_mod_to_equations; lia.

Lemma shr_1_code (mrs : shr_record) :
  0 <= shr_m mrs ->
  shr_code (shr_1 mrs) = sticky_half (shr_code mrs) /\ 0 <= shr_m (shr_1 mrs).
Proof.
  destruct mrs as [m r s]. unfold shr_code, sticky_half. cbn [shr_m shr_r shr_s].
  intros Hm. destruct m as [|[p|p|]|p]; try lia.
  - destruct r, s; split; try reflexivity; lia.
  - destruct r, s; cbn [shr_1 shr_m shr_r shr_s orb Z.b2z];
      rewrite !(Pos2Z.inj_xI p); (split; [div_mod_case|lia]).
  - destruct r, s; cbn [shr_1 shr_m shr_r shr_s orb Z.b2z];
      rewrite !(Pos2Z.inj_xO p); (split; [div_mod_case|lia]).
  - destruct r, s; split; try reflexivity; lia.
Qed.

Lemma sticky_half_mono (c1 c2 : Z) :
  0 <= c1 <= c2 -> 0 <= sticky_half c1 <= sticky_half c2.
Proof.
  unfold sticky_half. intros H. div_mod_case.
Qed.

Lemma sticky_half_quarter (c : Z) : 0 <= c -> sticky_half c / 4 = c / 4 / 2.
Proof.
  unfold sticky_half. intros H. div_mod_case.
Qed.

Lemma sticky_half_double (c : Z) : sticky_half (2 * c) = c.
Proof.
  unfold sticky_half. div_mod_case.
Qed.

Lemma iter_pos_nat {A : Type} (f : A -> A) (p : positive) :
  forall x : A, SpecFloat.iter_pos f p x = Nat.iter (Pos.to_nat p) f x.
Proof.
  induction p as [p IH|p IH|]; intros x; cbn [SpecFloat.iter_pos].
  - rewrite !IH. rewrite Pos2Nat.inj_xI.
    replace (S (2 * Pos.to_nat p))%nat with (Pos.to_nat p + S (Pos.to_nat p))%nat by lia.
    rewrite Nat.iter_add. f_equal. rewrite Nat.iter_succ_r. reflexivity.
  - rewrite !IH. rewrite Pos2Nat.inj_xO.
    replace (2 * Pos.to_nat p)%nat with (Pos.to_nat p + Pos.to_nat p)%nat by lia.
    rewrite Nat.iter_add. reflexivity.
  - reflexivity.
Qed.

Lemma sticky_shift_nat (c n : Z) :
  sticky_shift c n = Nat.iter (Z.to_nat n) sticky_half c.
Proof.
  destruct n as [|p|p]; cbn [sticky_shift]; try reflexivity.
  rewrite iter_pos_nat. rewrite Z2Nat.inj_pos. reflexivity.
Qed.

Lemma shr_code_shift (mrs : shr_record) (e n : Z) :
  0 <= shr_m mrs ->
  shr_code (fst (shr mrs e n)) = sticky_shift (shr_code mrs) n /\
  0 <= shr_m (fst (shr mrs e n)).
Proof.
  intros Hm. destruct n as [|p|p]; cbn [shr fst sticky_shift]; try (split; [reflexivity|exact Hm]).
  rewrite !iter_pos_nat. generalize (Pos.to_nat p). intros k.
  induction k as [|k [IHc IHm]]; [split; [reflexivity|exact Hm]|].
  rewrite !Nat.iter_succ. destruct (shr_1_code _ IHm) as [Hc Hm']. rewrite Hc, IHc.
  split; [reflexivity|exact Hm'].
Qed.

Lemma sticky_shift_mono (c1 c2 n : Z) :
  0 <= c1 <= c2 -> 0 <= sticky_shift c1 n <= sticky_shift c2 n.
Proof.
  intros H. rewrite !sticky_shift_nat. generalize (Z.to_nat n). intros k.
  induction k as [|k IH]; [exact H|]. rewrite !Nat.iter_succ.
  apply sticky_half_mono. exact IH.
Qed.

Lemma sticky_shift_quarter (c n : Z) :
  0 <= c -> 0 <= sticky_shift c n /\ sticky_shift c n / 4 = c / 4 / 2 ^ Z.max 0 n.
Proof.
  intros Hc. rewrite sticky_shift_nat.
  replace (Z.max 0 n) with (Z.of_nat (Z.to_nat n)) by lia.
  generalize (Z.to_nat n). intros k.
  induction k as [|k [IH0 IH]].
  - cbn [Nat.iter]. simpl. rewrite Z.div_1_r. split; [exact Hc|reflexivity].
  - rewrite !Nat.iter_succ. split.
    + apply (sticky_half_mono 0 _). lia.
    + rewrite sticky_half_quarter by exact IH0. rewrite IH.
      rewrite Nat2Z.inj_succ, Z.pow_succ_r by lia.
      rewrite Z.div_div by (try apply Z.pow_pos_nonneg; lia).
      f_equal. lia.
Qed.

Lemma sticky_shift_add (c a b : Z) :
  0 <= a -> 0 <= b ->
  sticky_shift c (a + b) = sticky_shift (sticky_shift c a) b.
Proof.
  intros Ha Hb. rewrite !sticky_shift_nat.
  rewrite Z2Nat.inj_add by assumption.
  rewrite Nat.add_comm. apply Nat.iter_add.
Qed.

Lemma sticky_shift_exact (c j : Z) :
  0 <= j -> sticky_shift (c * 2 ^ j) j = c.
Proof.
  intros Hj. rewrite sticky_shift_nat.
  replace (2 ^ j) with (2 ^ Z.of_nat (Z.to_nat j))
    by (rewrite Z2Nat.id by exact Hj; reflexivity).
  generalize (Z.to_nat j). intros k.
  revert c. induction k as [|k IH]; intros c.
  - simpl. lia.
  - rewrite Nat.iter_succ_r. rewrite Nat2Z.inj_succ, Z.pow_succ_r by lia.
    replace (c * (2 * 2 ^ Z.of_nat k)) with (2 * (c * 2 ^ Z.of_nat k)) by lia.
    rewrite sticky_half_double. apply IH.
Qed.

Lemma round_code_record (mrs : shr_record) :
  0 <= shr_m mrs ->
  round_nearest_even (shr_m mrs) (loc_of_shr_record mrs)
  = round_code (shr_code mrs).
Proof.
  destruct mrs as [m r s]. unfold shr_code, round_code. cbn [shr_m shr_r shr_s].
  intros Hm.
  assert (Hq : forall b, 0 <= b < 4 -> (4 * m + b) / 4 = m /\ (4 * m + b) mod 4 = b).
  { intros b Hb. Z.div_mod_to_equations. lia. }
  destruct r, s; cbn [loc_of_shr_record round_nearest_even Z.b2z].
  - destruct (Hq 3 ltac:(lia)) as [H1 H2].
    replace (4 * m + 2 * 1 + 1) with (4 * m + 3) by lia. rewrite H1, H2. reflexivity.
  - destruct (Hq 2 ltac:(lia)) as [H1 H2].
    replace (4 * m + 2 * 1 + 0) with (4 * m + 2) by lia. rewrite H1, H2. reflexivity.
  - destruct (Hq 1 ltac:(lia)) as [H1 H2].
    replace (4 * m + 2 * 0 + 1) with (4 * m + 1) by lia. rewrite H1, H2. reflexivity.
  - destruct (Hq 0 ltac:(lia)) as [H1 H2].
    replace (4 * m + 2 * 0 + 0) with (4 * m + 0) by lia. rewrite H1, H2. reflexivity.
Qed.

Lemma round_code_bounds (c : Z) : c / 4 <= round_code c <= c / 4 + 1.
Proof.
  unfold round_code. destruct (c mod 4 <=? 1); [lia|].
  destruct (c mod 4 =? 2); [destruct (Z.even (c / 4))|]; lia.
Qed.

Lemma round_code_mono (c1 c2 : Z) :
  0 <= c1 <= c2 -> round_code c1 <= round_code c2.
Proof.
  intros H.
  pose proof (round_code_bounds c1) as B1. pose proof (round_code_bounds c2) as B2.
  destruct (Z.eq_dec (c1 / 4) (c2 / 4)) as [Heq|Hne].
  - unfold round_code in *. rewrite <- Heq in *.
    destruct (Z.leb_spec (c1 mod 4) 1) as [H1|H1];
      destruct (Z.leb_spec (c2 mod 4) 1) as [H2|H2].
    + lia.
    + destruct (c2 mod 4 =? 2); [destruct (Z.even (c1 / 4))|]; lia.
    + exfalso. Z.div_mod_to_equations. lia.
    + destruct (Z.eqb_spec (c1 mod 4) 2) as [H3|H3];
        destruct (Z.eqb_spec (c2 mod 4) 2) as [H4|H4];
        destruct (Z.even (c1 / 4)); try lia.
      exfalso. Z.div_mod_to_equations. lia.
  - assert (c1 / 4 < c2 / 4).
    { assert (c1 / 4 <= c2 / 4) by (apply Z.div_le_mono; lia). lia. }
    lia.
Qed.

Lemma round_model_eq (s : bool) (mx ex : Z) (l : location) :
  0 <= mx ->
  binary_round_aux prec32 emax32 s mx ex l
  = round_model s mx ex (shr_code (shr_record_of_loc mx l)).
Proof.
  intros Hmx. unfold binary_round_aux, shr_fexp, round_model.
  change (fexp prec32 emax32 (Zdigits2 mx + ex)) with (fexp32 (Zdigits2 mx + ex)).
  set (n1 := fexp32 (Zdigits2 mx + ex) - ex).
  assert (Hm0 : 0 <= shr_m (shr_record_of_loc mx l))
    by (rewrite shr_record_of_loc_m; exact Hmx).
  destruct (shr_code_shift (shr_record_of_loc mx l) ex n1 Hm0) as [Hc1 Hm1].
  destruct (shr_spec (shr_record_of_loc mx l) ex n1 Hm0) as [_ He1].
  destruct (shr (shr_record_of_loc mx l) ex n1) as [mrs' e'].
  cbn [fst snd] in Hc1, Hm1, He1. subst e'.
  rewrite (round_code_record mrs' Hm1), Hc1.
  set (m1 := round_code (sticky_shift (shr_code (shr_record_of_loc mx l)) n1)).
  assert (Hm1pos : 0 <= m1).
  { unfold m1. rewrite <- Hc1.
    pose proof (round_code_bounds (shr_code mrs')) as B.
    assert (0 <= shr_code mrs' / 4).
    { apply Z.div_pos; [|lia]. unfold shr_code.
      destruct (shr_r mrs'), (shr_s mrs'); simpl Z.b2z; lia. }
    lia. }
  change (fexp prec32 emax32 (Zdigits2 m1 + (ex + Z.max 0 n1)))
    with (fexp32 (Zdigits2 m1 + (ex + Z.max 0 n1))).
  set (n2 := fexp32 (Zdigits2 m1 + (ex + Z.max 0 n1)) - (ex + Z.max 0 n1)).
  assert (Hm2 : 0 <= shr_m (shr_record_of_loc m1 loc_Exact))
    by (rewrite shr_record_of_loc_m; exact Hm1pos).
  destruct (shr_spec (shr_record_of_loc m1 loc_Exact) (ex + Z.max 0 n1) n2 Hm2)
    as [Hm'' He''].
  rewrite shr_record_of_loc_m in Hm''.
  destruct (shr (shr_record_of_loc m1 loc_Exact) (ex + Z.max 0 n1) n2)
    as [mrs'' e''].
  cbn [fst snd] in Hm'', He''. subst e''. rewrite Hm''.
  unfold mk_float. reflexivity.
Qed.

Lemma Zdigits2_nonneg (m : Z) : 0 <= Zdigits2 m.
Proof. destruct m; simpl; lia. Qed.

Lemma Zdigits2_spec (m : Z) :
  0 < m -> 2 ^ (Zdigits2 m - 1) <= m < 2 ^ Zdigits2 m.
Proof.
  destruct m as [|p|p]; try lia. intros _. simpl. apply digits2_pos_bounds.
Qed.

Lemma Zdigits2_unique (m d : Z) :
  0 < m -> 2 ^ (d - 1) <= m < 2 ^ d -> Zdigits2 m = d.
Proof.
  intros Hm [Hlo Hhi].
  destruct (Zdigits2_spec m Hm) as [Hlo' Hhi'].
  pose proof (Zdigits2_nonneg m) as Hn.
  assert (Hd : 0 <= d).
  { destruct (Z.le_gt_cases 0 d) as [H|H]; [exact H|].
    rewrite (Z.pow_neg_r 2 d H) in Hhi. lia. }
  assert (H1 : Zdigits2 m - 1 < d).
  { apply (Z.pow_lt_mono_r_iff 2); lia. }
  assert (H2 : d - 1 < Zdigits2 m).
  { destruct (Z.le_gt_cases 0 (d - 1)) as [H|H]; [|lia].
    apply (Z.pow_lt_mono_r_iff 2); lia. }
  lia.
Qed.

Lemma Zdigits2_mono (a b : Z) : 0 <= a <= b -> Zdigits2 a <= Zdigits2 b.
Proof.
  intros [Ha Hab]. destruct (Z.eq_dec a 0) as [->|Hne].
  - simpl. apply Zdigits2_nonneg.
  - destruct (Zdigits2_spec a ltac:(lia)) as [Hlo _].
    destruct (Zdigits2_spec b ltac:(lia)) as [_ Hhi].
    pose proof (Zdigits2_nonneg b) as Hn.
    assert (Zdigits2 a - 1 < Zdigits2 b).
    { destruct (Z.le_gt_cases 0 (Zdigits2 a - 1)) as [H|H]; [|lia].
      apply (Z.pow_lt_mono_r_iff 2); lia. }
    lia.
Qed.

Lemma Zdigits2_mul_pow2 (m j : Z) :
  0 < m -> 0 <= j -> Zdigits2 (m * 2 ^ j) = Zdigits2 m + j.
Proof.
  intros Hm Hj. destruct (Zdigits2_spec m Hm) as [Hlo Hhi].
  assert (Hd : 1 <= Zdigits2 m) by (destruct m; simpl in *; lia).
  assert (Hp : 0 < 2 ^ j) by (apply Z.pow_pos_nonneg; lia).
  apply Zdigits2_unique; [nia|].
  replace (Zdigits2 m + j - 1) with (Zdigits2 m - 1 + j) by lia.
  rewrite !Z.pow_add_r by lia. nia.
Qed.

Lemma fexp32_mono (a b : Z) : a <= b -> fexp32 a <= fexp32 b.
Proof. unfold fexp32. lia. Qed.

Lemma fexp32_lower (a : Z) : -149 <= fexp32 a.
Proof. unfold fexp32. lia. Qed.

(** The result of rounding a mantissa that is not negative at an
    exponent that is not above the target exponent. *)
Lemma round_model_shape (s : bool) (m e0 : Z) :
  0 <= m -> e0 <= fexp32 (Zdigits2 m + e0) ->
  let fe := fexp32 (Zdigits2 m + e0) in
  let M' := round_code (sticky_shift (4 * m) (fe - e0)) in
  m / 2 ^ (fe - e0) <= M' <= m / 2 ^ (fe - e0) + 1 /\
  M' <= 2 ^ 24 /\
  (-149 < fe -> 2 ^ 23 <= M') /\
  round_model s m e0 (4 * m)
  = if M' =? 2 ^ 24 then mk_float s (2 ^ 23) (fe + 1) else mk_float s M' fe.
Proof.
  intros Hm Hk fe M'.
  set (k := fe - e0) in *.
  assert (Hk0 : 0 <= k) by (unfold k, fe; lia).
  assert (Hpk : 0 < 2 ^ k) by (apply Z.pow_pos_nonneg; lia).
  destruct (sticky_shift_quarter (4 * m) k ltac:(lia)) as [Hc0 Hcq].
  rewrite Z.max_r in Hcq by exact Hk0.
  replace (4 * m / 4) with m in Hcq by (rewrite Z.mul_comm, Z.div_mul; lia).
  pose proof (round_code_bounds (sticky_shift (4 * m) k)) as HB.
  rewrite Hcq in HB. fold M' in HB.
  assert (Hq0 : 0 <= m / 2 ^ k) by (apply Z.div_pos; lia).
  (* the quotient has at most 24 digits *)
  assert (Hq24 : m / 2 ^ k < 2 ^ 24).
  { destruct (Z.eq_dec m 0) as [->|Hne]; [rewrite Z.div_0_l by lia; lia|].
    destruct (Zdigits2_spec m ltac:(lia)) as [_ Hhi].
    apply Z.div_lt_upper_bound; [exact Hpk|].
    rewrite <- Z.pow_add_r by lia.
    assert (Zdigits2 m <= k + 24) by (unfold k, fe, fexp32; lia).
    assert (2 ^ Zdigits2 m <= 2 ^ (k + 24)) by (apply Z.pow_le_mono_r; lia).
    lia. }
  assert (HM24 : M' <= 2 ^ 24) by lia.
  assert (HM23 : -149 < fe -> 2 ^ 23 <= M').
  { intros Hn.
    assert (Hfe : fe = Zdigits2 m + e0 - 24) by (unfold fe, fexp32 in *; lia).
    assert (Hkd : k = Zdigits2 m - 24) by (unfold k; lia).
    assert (Hm0 : 0 < m).
    { destruct (Z.eq_dec m 0) as [->|Hne]; [simpl in Hkd; lia|lia]. }
    destruct (Zdigits2_spec m Hm0) as [Hlo _].
    assert (2 ^ 23 <= m / 2 ^ k).
    { apply Z.div_le_lower_bound; [exact Hpk|].
      rewrite <- Z.pow_add_r by lia.
      replace (k + 23) with (Zdigits2 m - 1) by lia. exact Hlo. }
    lia. }
  split; [exact HB|]. split; [exact HM24|]. split; [exact HM23|].
  unfold round_model. fold fe. fold k. rewrite (Z.max_r 0 k) by exact Hk0.
  replace (e0 + k) with fe by (unfold k; lia). fold M'.
  assert (HM0 : 0 <= M') by lia.
  pose proof (fexp32_lower (Zdigits2 m + e0)) as Hfel. fold fe in Hfel.
  destruct (Z.eqb_spec M' (2 ^ 24)) as [Heq|Hne].
  - rewrite Heq.
    assert (Hd : Zdigits2 (2 ^ 24) = 25) by reflexivity.
    rewrite Hd.
    assert (Hn2 : fexp32 (25 + fe) - fe = 1) by (unfold fexp32; lia).
    rewrite Hn2. replace (Z.max 0 1) with 1 by reflexivity. reflexivity.
  - assert (Hd : Zdigits2 M' <= 24).
    { apply Zdigits2_upper; lia. }
    assert (Hn2 : fexp32 (Zdigits2 M' + fe) - fe <= 0).
    { unfold fexp32. lia. }
    rewrite (Z.max_l 0 _) by exact Hn2.
    rewrite Z.pow_0_r, Z.div_1_r, Z.add_0_r. reflexivity.
Qed.

(** Comparison of two results. *)
Lemma mk_float_not_lt (M1 E1 M2 E2 : Z) :
  0 <= M1 ->
  M1 = 0 \/ (0 < M2 /\ (E1 < E2 \/ (E1 = E2 /\ M1 <= M2))) ->
  SFltb (mk_float false M2 E2) (mk_float false M1 E1) = false.
Proof.
  intros H1 Hc. unfold mk_float, SFltb.
  destruct M1 as [|p1|p1]; try lia.
  - destruct M2 as [|p2|p2]; try reflexivity.
    destruct (E2 <=? 104); reflexivity.
  - destruct Hc as [Hc|[H2 Hc]]; [discriminate|].
    destruct M2 as [|p2|p2]; try lia.
    destruct (Z.leb_spec E1 104) as [L1|L1];
      destruct (Z.leb_spec E2 104) as [L2|L2]; try reflexivity.
    + cbn [SFcompare].
      destruct Hc as [Hlt|[Heq Hle]].
      * rewrite (proj2 (Z.compare_gt_iff E2 E1)) by lia. reflexivity.
      * subst E2. rewrite Z.compare_refl.
        change (Pos.compare_cont Eq p2 p1) with (Pos.compare p2 p1).
        destruct (Pos.compare_spec p2 p1); try reflexivity. lia.
    + lia.
Qed.

(** Rounding at a fixed exponent is monotone in the mantissa. *)
Lemma round_model_mono (m1 m2 e0 : Z) :
  0 <= m1 <= m2 -> e0 <= -149 ->
  SFltb (round_model false m2 e0 (4 * m2)) (round_model false m1 e0 (4 * m1))
  = false.
Proof.
  intros [H1 H12] He0.
  pose proof (fexp32_lower (Zdigits2 m1 + e0)) as L1.
  pose proof (fexp32_lower (Zdigits2 m2 + e0)) as L2.
  destruct (round_model_shape false m1 e0 H1 ltac:(lia)) as [B1 [U1 [N1 R1]]].
  destruct (round_model_shape false m2 e0 ltac:(lia) ltac:(lia)) as [B2 [U2 [N2 R2]]].
  rewrite R1, R2. clear R1 R2.
  set (fe1 := fexp32 (Zdigits2 m1 + e0)) in *.
  set (fe2 := fexp32 (Zdigits2 m2 + e0)) in *.
  set (M1 := round_code (sticky_shift (4 * m1) (fe1 - e0))) in *.
  set (M2 := round_code (sticky_shift (4 * m2) (fe2 - e0))) in *.
  assert (Hfe : fe1 <= fe2).
  { unfold fe1, fe2. apply fexp32_mono.
    pose proof (Zdigits2_mono m1 m2 ltac:(lia)). lia. }
  assert (Hq1 : 0 <= m1 / 2 ^ (fe1 - e0))
    by (apply Z.div_pos; [lia|apply Z.pow_pos_nonneg; lia]).
  assert (HM1 : 0 <= M1) by lia.
  destruct (Z.eq_dec fe1 fe2) as [Heq|Hne].
  - assert (HM : M1 <= M2).
    { unfold M1, M2. rewrite Heq. apply round_code_mono.
      destruct (sticky_shift_mono (4 * m1) (4 * m2) (fe2 - e0) ltac:(lia)).
      lia. }
    rewrite <- Heq.
    destruct (Z.eqb_spec M1 (2 ^ 24)) as [E1|E1];
      destruct (Z.eqb_spec M2 (2 ^ 24)) as [E2|E2].
    + apply mk_float_not_lt; [lia|]. right. split; [lia|]. right. lia.
    + lia.
    + apply mk_float_not_lt; [lia|]. right. split; [lia|]. left. lia.
    + apply mk_float_not_lt; [lia|].
      destruct (Z.eq_dec M1 0) as [Z1|Z1]; [left; exact Z1|].
      right. split; [lia|]. right. lia.
  - assert (Hlt : fe1 < fe2) by lia.
    assert (H23 : 2 ^ 23 <= M2) by (apply N2; lia).
    destruct (Z.eqb_spec M1 (2 ^ 24)) as [E1|E1];
      destruct (Z.eqb_spec M2 (2 ^ 24)) as [E2|E2];
      (apply mk_float_not_lt; [lia|]); right; (split; [lia|]).
    + left. lia.
    + destruct (Z.eq_dec (fe1 + 1) fe2); [right; lia|left; lia].
    + left. lia.
    + left. lia.
Qed.

Lemma shift_pos_pow2 (p d : positive) :
  Zpos (Pos.iter xO p d) = Zpos p * 2 ^ Zpos d.
Proof.
  rewrite <- Z.shiftl_mul_pow2 by lia. cbn [Z.shiftl].
  apply (Pos.iter_swap_gen _ _ Zpos xO (Z.mul 2)). intros a. reflexivity.
Qed.

Lemma shr_code_exact (m : Z) :
  shr_code (shr_record_of_loc m loc_Exact) = 4 * m.
Proof. unfold shr_code. cbn [shr_record_of_loc shr_m shr_r shr_s Z.b2z]. lia. Qed.

(** Rounding does not depend on how an exact input is written. *)
Lemma round_model_scale (s : bool) (m e j : Z) :
  0 < m -> 0 <= j -> e <= fexp32 (Zdigits2 m + e) ->
  round_model s (m * 2 ^ j) (e - j) (4 * (m * 2 ^ j))
  = round_model s m e (4 * m).
Proof.
  intros Hm Hj Hn. unfold round_model.
  rewrite Zdigits2_mul_pow2 by assumption.
  replace (Zdigits2 m + j + (e - j)) with (Zdigits2 m + e) by lia.
  set (fe := fexp32 (Zdigits2 m + e)) in *.
  replace (fe - (e - j)) with (j + (fe - e)) by lia.
  rewrite sticky_shift_add by lia.
  replace (4 * (m * 2 ^ j)) with (4 * m * 2 ^ j) by lia.
  rewrite sticky_shift_exact by exact Hj.
  replace (e - j + Z.max 0 (j + (fe - e))) with (e + Z.max 0 (fe - e)) by lia.
  reflexivity.
Qed.

Lemma binary_round_model (s : bool) (p : positive) (e e0 : Z) :
  e0 <= e -> e0 <= fexp32 (Zpos (digits2_pos p) + e) ->
  binary_round prec32 emax32 s p e
  = round_model s (Zpos p * 2 ^ (e - e0)) e0 (4 * (Zpos p * 2 ^ (e - e0))).
Proof.
  intros He Hf. unfold binary_round, shl_align.
  change (fexp prec32 emax32 (Zpos (digits2_pos p) + e))
    with (fexp32 (Zpos (digits2_pos p) + e)).
  set (fe := fexp32 (Zpos (digits2_pos p) + e)) in *.
  assert (Hunshifted : e <= fe ->
            round_model s (Zpos p) e (4 * Zpos p)
            = round_model s (Zpos p * 2 ^ (e - e0)) e0
                (4 * (Zpos p * 2 ^ (e - e0)))).
  { intros Hle.
    pose proof (round_model_scale s (Zpos p) e (e - e0) ltac:(lia) ltac:(lia))
      as Hs.
    replace (e - (e - e0)) with e0 in Hs by lia.
    rewrite Hs; [reflexivity|].
    change (Zdigits2 (Zpos p)) with (Zpos (digits2_pos p)). fold fe. exact Hle. }
  destruct (fe - e) as [|d|d] eqn:Hd.
  - rewrite round_model_eq by lia. rewrite shr_code_exact.
    apply Hunshifted. lia.
  - rewrite round_model_eq by lia. rewrite shr_code_exact.
    apply Hunshifted. lia.
  - rewrite round_model_eq by lia. rewrite shr_code_exact, shift_pos_pow2.
    assert (Hfe : fe = e - Zpos d) by lia.
    pose proof (round_model_scale s (Zpos p * 2 ^ Zpos d) fe (fe - e0)) as Hs.
    replace (fe - (fe - e0)) with e0 in Hs by lia.
    replace (Zpos p * 2 ^ Zpos d * 2 ^ (fe - e0))
      with (Zpos p * 2 ^ (e - e0)) in Hs.
    + rewrite Hs; [reflexivity| | |].
      * apply Z.mul_pos_pos; [lia|apply Z.pow_pos_nonneg; lia].
      * lia.
      * rewrite Zdigits2_mul_pow2 by lia.
        change (Zdigits2 (Zpos p)) with (Zpos (digits2_pos p)).
        replace (Zpos (digits2_pos p) + Zpos d + fe)
          with (Zpos (digits2_pos p) + e) by lia.
        fold fe. lia.
    + replace (e - e0) with (Zpos d + (fe - e0)) by lia.
      rewrite Z.pow_add_r by lia. lia.
Qed.

Lemma binary_round_mono (p1 p2 : positive) (e : Z) :
  (p1 <= p2)%positive ->
  SFltb (binary_round prec32 emax32 false p2 e)
        (binary_round prec32 emax32 false p1 e) = false.
Proof.
  intros Hp.
  set (e0 := Z.min e (-149)).
  pose proof (fexp32_lower (Zpos (digits2_pos p1) + e)).
  pose proof (fexp32_lower (Zpos (digits2_pos p2) + e)).
  rewrite (binary_round_model false p1 e e0) by (unfold e0; lia).
  rewrite (binary_round_model false p2 e e0) by (unfold e0; lia).
  assert (Hpow : 0 < 2 ^ (e - e0)) by (apply Z.pow_pos_nonneg; unfold e0; lia).
  apply round_model_mono; [|unfold e0; lia].
  assert (Zpos p1 <= Zpos p2) by lia. nia.
Qed.

Lemma mk_float_opp (M E : Z) :
  mk_float true M E = SFopp (mk_float false M E).
Proof.
  unfold mk_float. destruct M as [|m|m]; try reflexivity.
  destruct (E <=? 104); reflexivity.
Qed.

Lemma binary_round_opp (p : positive) (e : Z) :
  binary_round prec32 emax32 true p e
  = SFopp (binary_round prec32 emax32 false p e).
Proof.
  pose proof (fexp32_lower (Zpos (digits2_pos p) + e)).
  rewrite (binary_round_model true p e (Z.min e (-149))) by lia.
  rewrite (binary_round_model false p e (Z.min e (-149))) by lia.
  unfold round_model. apply mk_float_opp.
Qed.

Lemma SFltb_opp (a b : float32) : SFltb (SFopp a) (SFopp b) = SFltb b a.
Proof.
  unfold SFltb.
  destruct a as [sa|sa| |sa ma ea], b as [sb|sb| |sb mb eb];
    try destruct sa; try destruct sb; simpl; try reflexivity;
    change (Pos.compare_cont Eq ma mb) with (Pos.compare ma mb);
    change (Pos.compare_cont Eq mb ma) with (Pos.compare mb ma);
    rewrite (Z.compare_antisym ea eb), (Pos.compare_antisym ma mb);
    destruct (ea ?= eb); simpl; try reflexivity;
    destruct (ma ?= mb)%positive; reflexivity.
Qed.

(** The sign of a rounded positive mantissa. *)
Lemma binary_round_sign (s : bool) (p : positive) (e : Z) :
  match binary_round prec32 emax32 s p e with
  | S754_zero s' | S754_infinity s' | S754_finite s' _ _ => s' = s
  | S754_nan => True
  end.
Proof.
  unfold binary_round. destruct (shl_align _ _ _) as [mz ez].
  apply binary_round_aux_sign.
Qed.

Lemma binary_round_not_nan (s : bool) (p : positive) (e : Z) :
  binary_round prec32 emax32 s p e <> S754_nan.
Proof.
  pose proof (fexp32_lower (Zpos (digits2_pos p) + e)).
  rewrite (binary_round_model s p e (Z.min e (-149))) by lia.
  assert (Hpos : 0 < Zpos p * 2 ^ (e - Z.min e (-149))).
  { apply Z.mul_pos_pos; [lia|apply Z.pow_pos_nonneg; lia]. }
  pose proof (fexp32_lower (Zdigits2 (Zpos p * 2 ^ (e - Z.min e (-149)))
                            + Z.min e (-149))).
  destruct (round_model_shape s (Zpos p * 2 ^ (e - Z.min e (-149)))
              (Z.min e (-149)) ltac:(lia) ltac:(lia)) as [B [_ [_ R]]].
  rewrite R. clear R.
  set (M' := round_code _) in *.
  assert (0 <= M').
  { assert (0 <= Zpos p * 2 ^ (e - Z.min e (-149))
                 / 2 ^ (fexp32 (Zdigits2 (Zpos p * 2 ^ (e - Z.min e (-149)))
                                + Z.min e (-149)) - Z.min e (-149)))
      by (apply Z.div_pos; [lia|apply Z.pow_pos_nonneg; lia]).
    lia. }
  destruct (M' =? 2 ^ 24).
  - unfold mk_float. change (2 ^ 23) with 8388608.
    destruct (_ <=? 104); discriminate.
  - unfold mk_float. destruct M' as [|m|m]; try lia; try discriminate.
    destruct (_ <=? 104); discriminate.
Qed.

(** [binary_normalize] is monotone in the mantissa. *)
Lemma binary_normalize_mono (m1 m2 e : Z) :
  m1 <= m2 ->
  SFltb (binary_normalize prec32 emax32 m2 e false)
        (binary_normalize prec32 emax32 m1 e false) = false.
Proof.
  intros H12. unfold binary_normalize.
  destruct m1 as [|p1|p1], m2 as [|p2|p2]; try lia.
  - reflexivity.
  - pose proof (binary_round_sign false p2 e) as Hs.
    destruct (binary_round prec32 emax32 false p2 e) as [s|s| |s m' e'];
      try reflexivity; subst s; reflexivity.
  - apply binary_round_mono. lia.
  - pose proof (binary_round_sign true p1 e) as Hs.
    destruct (binary_round prec32 emax32 true p1 e) as [s|s| |s m' e'];
      try reflexivity; subst s; reflexivity.
  - pose proof (binary_round_sign true p1 e) as Hs1.
    pose proof (binary_round_sign false p2 e) as Hs2.
    destruct (binary_round prec32 emax32 true p1 e) as [s1|s1| |s1 m1 e1];
      destruct (binary_round prec32 emax32 false p2 e) as [s2|s2| |s2 m2 e2];
      try reflexivity; subst; reflexivity.
  - rewrite !binary_round_opp, SFltb_opp. apply binary_round_mono. lia.
Qed.

End RoundingCodes.

(** ** Signs and order of rounded sums and differences *)

Lemma sqrt_not_negative (a : float32) : not_negative (fsqrt a) = true.
Proof.
  destruct a as [s|s| |s m e]; try destruct s; try reflexivity.
  change (fsqrt (S754_finite false m e))
    with (SFsqrt prec32 emax32 (S754_finite false m e)).
  cbn [SFsqrt]. destruct (SFsqrt_core_binary _ _ _ _) as [[mz ez] lz].
  pose proof (binary_round_aux_sign false mz ez lz) as Hs.
  destruct (binary_round_aux _ _ _ _ _ _) as [s|s| |s m' e'];
    try reflexivity; subst s; reflexivity.
Qed.



(** [tca - thc] is never above [tca + thc] when [thc] is not negative. *)
Lemma add_sub_order (a b : float32) :
  not_negative b = true -> ((a + b) <? (a - b))%flt = false.
Proof.
  intros Hb.
  change ((a + b) <? (a - b))%flt
    with (SFltb (SFadd prec32 emax32 a b) (SFsub prec32 emax32 a b)).
  destruct b as [sb|sb| |sb mb eb]; try destruct sb; try discriminate.
  - destruct a as [sa|sa| |sa ma ea]; try destruct sa; try reflexivity;
      cbn [SFadd SFsub]; apply SFltb_irrefl.
  - destruct a as [sa|sa| |sa ma ea]; try destruct sa; try reflexivity;
      cbn [SFadd SFsub]; apply SFltb_irrefl.
  - destruct a as [sa|sa| |sa ma ea]; try destruct sa; reflexivity.
  - destruct a as [sa|sa| |sa ma ea]; reflexivity.
  - destruct a as [sa|sa| |sa ma ea]; try destruct sa; try reflexivity;
      cbn [SFadd SFsub]; try apply SFltb_irrefl;
      apply binary_normalize_mono; cbn [cond_Zopp]; lia.
Qed.

Lemma finite_add_not_nan (a b : float32) :
  f32_finite a = true -> f32_finite b = true ->
  is_nan (a + b)%flt = false /\ is_nan (a - b)%flt = false.
Proof.
  intros Ha Hb.
  change (a + b)%flt with (SFadd prec32 emax32 a b).
  change (a - b)%flt with (SFsub prec32 emax32 a b).
  assert (Hbn : forall m e, is_nan (binary_normalize prec32 emax32 m e false) = false).
  { intros m e. unfold binary_normalize. destruct m as [|p|p]; try reflexivity.
    - pose proof (binary_round_not_nan false p e).
      destruct (binary_round _ _ _ _ _); try reflexivity. congruence.
    - pose proof (binary_round_not_nan true p e).
      destruct (binary_round _ _ _ _ _); try reflexivity. congruence. }
  destruct a as [sa|sa| |sa ma ea], b as [sb|sb| |sb mb eb]; try discriminate;
    try destruct sa; try destruct sb; cbn [SFadd SFsub];
    try (split; reflexivity); split; apply Hbn.
Qed.

(** ** Valid binary32 values *)

Section Validity.
Local Open Scope Z_scope.









End Validity.



Section Exactness.
Local Open Scope Z_scope.


End Exactness.



(** ** The edge-case policy of [ray_intersect] *)

(** C1.  The edge-case policy of [ray_intersect], for every sphere, ray
    origin and direction.  (a) When the squared distance [d2] from the
    centre to the ray's line exceeds [radius * radius] the call reports
    no intersection and leaves [t0] as it was.  (b) Otherwise the near
    root [tca - thc] is replaced by the far root [tca + thc] when it is
    below zero, and the call reports no intersection exactly when the
    resulting value is still below zero.  (c) The first comparison is
    strict: at tangency, [d2 == radius * radius], it does not reject,
    and for a finite radius the half chord is zero and the single root
    [tca] is returned unless it is below zero.  (d) The far root is
    never below the near root.  (e) On success the returned distance
    is the near root when that is not below zero and the far root
    otherwise; it is never below zero, no root that is not below zero
    is smaller than it, and it is at least zero whenever it is a
    number.  It is NaN only when [tca] or the half chord [thc] is not
    finite. *)
Theorem ray_intersect_policy (s : Sphere float32) (orig dir : Vec3f float32)
  (t_in : float32) :
  let r2 := (radius s * radius s)%flt in
  let d2 := d2_of s orig dir in
  let t0 := near_root s orig dir in
  let t1 := far_root s orig dir in
  ((r2 <? d2)%flt = true -> ray_intersect s orig dir t_in = (false, t_in)) /\
  ((r2 <? d2)%flt = false ->
   ray_intersect s orig dir t_in =
   (negb ((if t0 <? of_int 0 then t1 else t0) <? of_int 0),
    if t0 <? of_int 0 then t1 else t0)%flt) /\
  (SFeqb d2 r2 = true ->
   (r2 <? d2)%flt = false /\
   (f32_finite r2 = true ->
    thc_of s orig dir = S754_zero false /\
    ray_intersect s orig dir t_in =
    (negb (tca_of s orig dir <? of_int 0)%flt, tca_of s orig dir))) /\
  (t1 <? t0)%flt = false /\
  (forall t, ray_intersect s orig dir t_in = (true, t) ->
   (r2 <? d2)%flt = false /\
   (t <? of_int 0)%flt = false /\
   ((t0 <? of_int 0)%flt = false /\ t = t0 \/
    (t0 <? of_int 0)%flt = true /\ t = t1) /\
   ((t0 <? of_int 0)%flt = false -> (t0 <? t)%flt = false) /\
   ((t1 <? of_int 0)%flt = false -> (t1 <? t)%flt = false) /\
   (is_nan t = false -> SFleb (of_int 0) t = true) /\
   (is_nan t = true ->
    f32_finite (tca_of s orig dir) = false \/
    f32_finite (thc_of s orig dir) = false)).
Proof.
  intros r2 d2 t0 t1.
  assert (Hmiss : (r2 <? d2)%flt = true ->
                  ray_intersect s orig dir t_in = (false, t_in)).
  { intros Hgt. rewrite ray_intersect_unfold. fold r2 d2. rewrite Hgt.
    reflexivity. }
  assert (Hsel : (r2 <? d2)%flt = false ->
    ray_intersect s orig dir t_in =
    (negb ((if t0 <? of_int 0 then t1 else t0) <? of_int 0),
     if t0 <? of_int 0 then t1 else t0)%flt).
  { intros Hle. rewrite ray_intersect_unfold. fold r2 d2 t0 t1. rewrite Hle.
    reflexivity. }
  assert (Hord : (t1 <? t0)%flt = false).
  { unfold t0, t1, near_root, far_root, thc_of.
    apply add_sub_order. apply sqrt_not_negative. }
  assert (Hnan : forall t, (t = t0 \/ t = t1) -> is_nan t = true ->
            f32_finite (tca_of s orig dir) = false \/
            f32_finite (thc_of s orig dir) = false).
  { intros t Ht Hn.
    destruct (f32_finite (tca_of s orig dir)) eqn:Fa; [|left; reflexivity].
    destruct (f32_finite (thc_of s orig dir)) eqn:Fb; [|right; reflexivity].
    destruct (finite_add_not_nan _ _ Fa Fb) as [Hp Hm].
    destruct Ht as [-> | ->].
    - unfold t0, near_root in Hn. rewrite Hm in Hn. discriminate.
    - unfold t1, far_root in Hn. rewrite Hp in Hn. discriminate. }
  split; [exact Hmiss|]. split; [exact Hsel|]. split; [|split; [exact Hord|]].
  - intros Heq.
    assert (Hle : (r2 <? d2)%flt = false) by (apply SFeqb_not_ltb; exact Heq).
    split; [exact Hle|]. intros Hfin.
    assert (Hthc : thc_of s orig dir = S754_zero false).
    { unfold thc_of. fold r2 d2. simpl fsub. simpl fsqrt.
      rewrite (SFsub_eq_zero d2 r2 Heq Hfin); [reflexivity|].
      pose proof (SFmul_self_sign (radius s)) as Hs.
      change (SFmul prec32 emax32 (radius s) (radius s)) with r2 in Hs.
      destruct r2 as [sg|sg| |sg m e]; try exact I; rewrite Hs; exact I. }
    split; [exact Hthc|].
    rewrite (Hsel Hle). unfold t0, t1, near_root, far_root. rewrite Hthc.
    set (tca := tca_of s orig dir).
    rewrite f32_sub_zero_r, f32_zero.
    destruct ((tca <? S754_zero false)%flt) eqn:Hneg.
    + rewrite (f32_add_zero_r_neg _ Hneg), Hneg. reflexivity.
    + rewrite Hneg. reflexivity.
  - intros t Hhit.
    destruct ((r2 <? d2)%flt) eqn:Hcmp.
    + rewrite (Hmiss eq_refl) in Hhit. discriminate.
    + rewrite (Hsel eq_refl) in Hhit.
      destruct ((t0 <? of_int 0)%flt) eqn:Hneg;
        injection Hhit as Hnot Ht; apply negb_true_iff in Hnot;
        rewrite Ht in Hnot; subst t.
      * split; [reflexivity|]. split; [exact Hnot|].
        split; [right; split; reflexivity|].
        split; [discriminate|]. split; [intros _; apply SFltb_irrefl|].
        split.
        -- intros Hn. rewrite f32_zero in *. apply not_ltb_zero_leb; assumption.
        -- apply Hnan. right. reflexivity.
      * split; [reflexivity|]. split; [exact Hnot|].
        split; [left; split; reflexivity|].
        split; [intros _; apply SFltb_irrefl|]. split; [intros _; exact Hord|].
        split.
        -- intros Hn. rewrite f32_zero in *. apply not_ltb_zero_leb; assumption.
        -- apply Hnan. left. reflexivity.
Qed.

(** C1 as stated fails: on success the distance need not be a root that
    is at least zero.  For the unit sphere [2^64] down the negative z
    axis and the unit direction (0, 0, -1), [tca * tca] is [2^128],
    which overflows to infinity; [d2] is minus infinity, the half chord
    is infinity, both roots are NaN, and the call returns [true] with
    NaN as the distance. *)
Lemma ray_intersect_far_sphere_nan :
  dot (vec3 0 0 (-1)) (vec3 0 0 (-1)) = (of_int 1 : float32) /\
  ray_intersect far_sphere (vec3 0 0 0) (vec3 0 0 (-1)) (of_int 0)
  = (true, S754_nan) /\
  near_root far_sphere (vec3 0 0 0) (vec3 0 0 (-1)) = S754_nan /\
  far_root far_sphere (vec3 0 0 0) (vec3 0 0 (-1)) = S754_nan /\
  SFleb (of_int 0) S754_nan = false.
Proof. repeat split; vm_compute; reflexivity. Qed.

(** ** A ray whose origin the program sees inside the sphere *)



(** ** Worked examples *)

(** The ray from the origin down the z axis meets the unit sphere
    around (0, 0, -5) at distance 4, whatever [t0] held before. *)
Example front_sphere_hit_at_4 :
  ray_intersect front_sphere (vec3 0 0 0) (vec3 0 0 (-1)) S754_nan
  = (true, of_int 4).
Proof. vm_compute. reflexivity. Qed.

(** A ray along the x axis passes the same sphere at distance 5 from
    its centre and misses; [t0] keeps its previous content. *)
Example front_sphere_side_miss :
  ray_intersect front_sphere (vec3 0 0 0) (vec3 1 0 0) (of_int 7)
  = (false, of_int 7).
Proof. vm_compute. reflexivity. Qed.

(** A tangent ray is a hit in one point: [d2 = radius * radius],
    [thc = 0], and the distance is [tca = 5]. *)
Example tangent_sphere_hit :
  SFeqb (d2_of tangent_sphere (vec3 0 0 0) (vec3 0 0 (-1)))
        (radius tangent_sphere * radius tangent_sphere)%flt = true /\
  thc_of tangent_sphere (vec3 0 0 0) (vec3 0 0 (-1)) = S754_zero false /\
  ray_intersect tangent_sphere (vec3 0 0 0) (vec3 0 0 (-1)) S754_nan
  = (true, of_int 5).
Proof. repeat split; vm_compute; reflexivity. Qed.

(** A sphere behind the origin is rejected by the second test, and
    [t0] is left holding the negative far root. *)
Example sphere_behind_miss :
  ray_intersect front_sphere (vec3 0 0 0) (vec3 0 0 1) S754_nan
  = (false, of_int (-4)).
Proof. vm_compute. reflexivity. Qed.

(** From the centre of the sphere the near root is -1 and the far
    root 1 is returned. *)
Example inside_sphere_far_root :
  near_root front_sphere (vec3 0 0 (-5)) (vec3 0 0 (-1)) = of_int (-1) /\
  ray_intersect front_sphere (vec3 0 0 (-5)) (vec3 0 0 (-1)) S754_nan
  = (true, of_int 1).
Proof. split; vm_compute; reflexivity. Qed.

(** Of two spheres on the ray the nearer one is recorded, in either
    list order; of two spheres at the same distance the first. *)
Example nearest_of_two :
  let far := ball (vec3 0 0 (-10)) 1 in
  let twin := mkSphere (vec3 0 0 (-5)) (of_int 1) (vec3 1 0 0) (of_int 1)
                (of_int 0) in
  let start := mkOuts Vec3f_zero Vec3f_zero Vec3f_zero S754_nan S754_nan in
  scene_intersect u_nan (vec3 0 0 0) (vec3 0 0 (-1)) [far; front_sphere] start
  = (true, record_hit (vec3 0 0 0) (vec3 0 0 (-1)) front_sphere (of_int 4)) /\
  scene_intersect u_nan (vec3 0 0 0) (vec3 0 0 (-1)) [front_sphere; far] start
  = (true, record_hit (vec3 0 0 0) (vec3 0 0 (-1)) front_sphere (of_int 4)) /\
  scene_intersect u_nan (vec3 0 0 0) (vec3 0 0 (-1)) [twin; front_sphere] start
  = (true, record_hit (vec3 0 0 0) (vec3 0 0 (-1)) twin (of_int 4)) /\
  scene_intersect u_nan (vec3 0 0 0) (vec3 0 0 (-1)) [front_sphere; twin] start
  = (true, record_hit (vec3 0 0 0) (vec3 0 0 (-1)) front_sphere (of_int 4)).
Proof. repeat split; vm_compute; reflexivity. Qed.

(** With no sphere every ray yields the background after one scan;
    with no light a hit keeps only the reflected part. *)
Example empty_scene_background :
  cast_ray_cost pow_example u_nan (vec3 0 0 0) (vec3 0 0 (-1)) [] [near_light] 0
  = (background, 1%nat).
Proof. vm_compute. reflexivity. Qed.

(** Two spheres that face each other: the ray bounces between them
    until the depth bound stops it, after five scans. *)
Example facing_spheres_bounded :
  snd (cast_ray_cost pow_example u_nan (vec3 0 0 0) (vec3 0 0 (-1))
         [ball (vec3 0 0 (-5)) 1; ball (vec3 0 0 5) 1] [] 0) = 5%nat /\
  levels 0 = 6%nat.
Proof. split; vm_compute; reflexivity. Qed.

(** A vector that is not zero but whose squared length underflows to
    zero, (2^-80, 0, 0), is normalised to (inf, NaN, NaN). *)
Example tiny_vector_normalize :
  normalize (mkVec3f (S754_finite false 8388608 (-103)) (S754_zero false)
               (S754_zero false) : Vec3f float32)
  = mkVec3f (S754_infinity false) S754_nan S754_nan.
Proof. vm_compute. reflexivity. Qed.

(** * Further properties of the code *)

(** ** Signs of sums and products in binary32 *)

Lemma sign_clear_round_aux (m e : Z) (l : location) :
  sign_clear (binary_round_aux prec32 emax32 false m e l) = true.
Proof.
  pose proof (binary_round_aux_sign false m e l) as Hs.
  destruct (binary_round_aux _ _ _ _ _ _); try reflexivity;
    simpl; rewrite Hs; reflexivity.
Qed.

Lemma sign_clear_round (m : positive) (e : Z) :
  sign_clear (binary_round prec32 emax32 false m e) = true.
Proof.
  unfold binary_round. destruct (shl_align _ _ _) as [mz ez].
  apply sign_clear_round_aux.
Qed.

Lemma sign_clear_add (a b : float32) :
  sign_clear a = true -> sign_clear b = true -> sign_clear (a + b)%flt = true.
Proof.
  destruct a as [sa|sa| |sa ma ea], b as [sb|sb| |sb mb eb];
    try destruct sa; try destruct sb; simpl; intros Ha Hb;
    try discriminate; try reflexivity.
  unfold binary_normalize. cbn [cond_Zopp]. simpl Z.add.
  apply sign_clear_round.
Qed.

Lemma sign_clear_mul (a b : float32) :
  sign_clear a = true -> sign_clear b = true -> sign_clear (a * b)%flt = true.
Proof.
  destruct a as [sa|sa| |sa ma ea], b as [sb|sb| |sb mb eb];
    try destruct sa; try destruct sb; simpl; intros Ha Hb;
    try discriminate; try reflexivity.
  apply sign_clear_round_aux.
Qed.

Lemma sign_clear_square (a : float32) : sign_clear (a * a)%flt = true.
Proof.
  pose proof (SFmul_self_sign a) as Hs.
  change (a * a)%flt with (SFmul prec32 emax32 a a).
  destruct (SFmul prec32 emax32 a a); try reflexivity;
    simpl; rewrite Hs; reflexivity.
Qed.

Lemma sign_clear_not_below_zero (a : float32) :
  sign_clear a = true -> (a <? of_int 0)%flt = false.
Proof.
  destruct a as [s|s| |s m e]; try destruct s; simpl; intros Ha;
    try discriminate; reflexivity.
Qed.

Lemma sign_clear_fmax_zero (a : float32) :
  sign_clear (fmax (of_int 0) a) = true /\ is_nan (fmax (of_int 0) a) = false.
Proof.
  unfold fmax. destruct a as [s|s| |s m e]; try destruct s; split; reflexivity.
Qed.

(** A result of [binary_round_aux] on a mantissa that is not negative
    is not NaN. *)
Lemma binary_round_aux_not_nan (s : bool) (mx ex : Z) (l : location) :
  (0 <= mx)%Z -> is_nan (binary_round_aux prec32 emax32 s mx ex l) = false.
Proof.
  intros Hmx. unfold binary_round_aux, shr_fexp.
  set (n1 := (fexp prec32 emax32 (Zdigits2 mx + ex) - ex)%Z).
  destruct (shr_spec (shr_record_of_loc mx l) ex n1) as [Hm' He'];
    [rewrite shr_record_of_loc_m; exact Hmx|].
  rewrite shr_record_of_loc_m in Hm'.
  destruct (shr (shr_record_of_loc mx l) ex n1) as [mrs' e'].
  cbn [fst snd] in Hm', He'.
  set (m1 := round_nearest_even (shr_m mrs') (loc_of_shr_record mrs')).
  pose proof (round_nearest_even_bounds (shr_m mrs') (loc_of_shr_record mrs'))
    as Hm1. fold m1 in Hm1. rewrite Hm' in Hm1.
  assert (Hm1pos : (0 <= m1)%Z).
  { assert (0 <= mx / 2 ^ Z.max 0 n1)%Z
      by (apply Z.div_pos; [lia|apply Z.pow_pos_nonneg; lia]). lia. }
  set (n2 := (fexp prec32 emax32 (Zdigits2 m1 + e') - e')%Z).
  destruct (shr_spec (shr_record_of_loc m1 loc_Exact) e' n2) as [Hm'' He''];
    [rewrite shr_record_of_loc_m; exact Hm1pos|].
  rewrite shr_record_of_loc_m in Hm''.
  destruct (shr (shr_record_of_loc m1 loc_Exact) e' n2) as [mrs'' e''].
  cbn [fst snd] in Hm'', He''.
  assert (Hpos : (0 <= shr_m mrs'')%Z).
  { rewrite Hm''. apply Z.div_pos; [lia|apply Z.pow_pos_nonneg; lia]. }
  destruct (shr_m mrs''); [reflexivity| |lia].
  destruct (Z.leb _ _); reflexivity.
Qed.

Lemma sqrt_not_nan (a : float32) :
  sign_clear a = true -> is_nan a = false -> is_nan (fsqrt a) = false.
Proof.
  destruct a as [s|s| |s m e]; try destruct s; simpl; intros Ha Hn;
    try discriminate; try reflexivity.
  unfold SFsqrt_core_binary.
  set (e' := Z.min _ _).
  set (m' := match (e - 2 * e')%Z with Zpos p => _ | _ => _ end).
  pose proof (Z.sqrtrem_spec m') as Hspec.
  assert (Hm' : (0 <= m')%Z).
  { unfold m'. destruct (e - 2 * e')%Z; try lia.
    apply (proj2 (Z.shiftl_nonneg (Zpos m) (Zpos p))). lia. }
  specialize (Hspec Hm').
  destruct (Z.sqrtrem m') as [q r].
  apply binary_round_aux_not_nan. nia.
Qed.

Lemma f32_dot_unfold (a b : Vec3f float32) :
  dot a b = (x a * x b + y a * y b + z a * z b)%flt.
Proof. reflexivity. Qed.

(** X7.  In binary32 [dot] is symmetric, and the dot product of a
    vector with itself is never below zero, whatever the components
    are: its sign bit is clear or it is NaN.  So [normalize] never takes
    the square root of a negative number: unless the squared length is
    NaN itself, the magnitude [sqrt(dot(v, v))] is not NaN. *)
Theorem dot_self_not_negative (v w : Vec3f float32) :
  dot v w = dot w v /\
  sign_clear (dot v v) = true /\
  (dot v v <? of_int 0)%flt = false /\
  (is_nan (dot v v) = false -> is_nan (fsqrt (dot v v)) = false).
Proof.
  assert (Hs : sign_clear (dot v v) = true).
  { rewrite f32_dot_unfold.
    apply sign_clear_add; [apply sign_clear_add|]; apply sign_clear_square. }
  split.
  - rewrite !f32_dot_unfold.
    rewrite (f32_mul_comm (x v)), (f32_mul_comm (y v)), (f32_mul_comm (z v)).
    reflexivity.
  - split; [exact Hs|]. split.
    + apply sign_clear_not_below_zero. exact Hs.
    + apply sqrt_not_nan. exact Hs.
Qed.

(** ** The diffuse total *)

Lemma shade_lights_diffuse_sign (pow : float32 -> float32 -> float32)
  (u : Uninit float32) (dir : Vec3f float32) (spheres : list (Sphere float32))
  (o : Outs float32) (lights : list (Light float32)) :
  Forall (fun l => sign_clear (intensity l) = true) lights ->
  forall acc : float32 * float32,
  sign_clear (fst acc) = true ->
  sign_clear
    (fst (fold_left (shade_light pow u dir spheres o) lights acc)) = true.
Proof.
  induction 1 as [|l lights Hl _ IH]; intros acc Hacc; [exact Hacc|].
  simpl. apply IH. unfold shade_light.
  destruct (fst (shadow_test u spheres o l)); [exact Hacc|].
  cbv zeta. cbn [fst]. apply sign_clear_add; [exact Hacc|].
  apply sign_clear_mul; [exact Hl|]. apply sign_clear_fmax_zero.
Qed.

(** X8.  When no light has a negative intensity (each intensity has a
    clear sign bit or is NaN), the diffuse total accumulated by the
    loop over the lights of [cast_ray] is never below zero, for every
    scene, hit record and ray: each term is
    [intensity * max(0.f, light_dir.dot(N))], and [max(0.f, _)] is
    neither negative nor NaN. *)
Theorem diffuse_total_not_negative (pow : float32 -> float32 -> float32)
  (u : Uninit float32) (dir : Vec3f float32) (spheres : list (Sphere float32))
  (lights : list (Light float32)) (o : Outs float32) :
  Forall (fun l => sign_clear (intensity l) = true) lights ->
  sign_clear (fst (shade_lights pow u dir spheres lights o)) = true /\
  (fst (shade_lights pow u dir spheres lights o) <? of_int 0)%flt = false.
Proof.
  intros Hl.
  assert (Hs : sign_clear (fst (shade_lights pow u dir spheres lights o)) = true).
  { unfold shade_lights. apply shade_lights_diffuse_sign; [exact Hl|reflexivity]. }
  split; [exact Hs|]. apply sign_clear_not_below_zero. exact Hs.
Qed.

Lemma diffuse_total_not_negative_witness :
  sign_clear (fst (shade_lights pow_example u_nan (vec3 0 0 (-1)) [front_sphere]
                     [near_light; near_light] up_point)) = true /\
  (fst (shade_lights pow_example u_nan (vec3 0 0 (-1)) [front_sphere]
          [near_light; near_light] up_point) <? of_int 0)%flt = false.
Proof.
  apply (diffuse_total_not_negative pow_example u_nan (vec3 0 0 (-1))
           [front_sphere] [near_light; near_light] up_point).
  repeat constructor.
Defined.

(** ** The scan and the sphere list *)

(** The two outcomes of [scene_intersect], read off the loop invariant. *)
Lemma scene_intersect_outcome (u : Uninit float32) (orig dir : Vec3f float32)
  (spheres : list (Sphere float32)) (out0 : Outs float32) :
  (fst (scene_intersect u orig dir spheres out0) = true /\
   exists s t,
     In s spheres /\ intersection s orig dir = Some t /\
     SFltb t flt_max = true /\
     snd (scene_intersect u orig dir spheres out0) = record_hit orig dir s t /\
     nothing_nearer orig dir spheres t) \/
  (fst (scene_intersect u orig dir spheres out0) = false /\
   snd (scene_intersect u orig dir spheres out0) = out0 /\
   nothing_nearer orig dir spheres flt_max).
Proof.
  unfold scene_intersect.
  pose proof (scan_inv_final u orig dir out0 spheres) as [Hnear Hcase].
  destruct (scan u orig dir spheres (flt_max, out0)) as [dist out'].
  simpl fst in *. simpl snd in *.
  destruct Hcase as [[Hd Ho]|(pre & s & post & t & Hp & Hs & Hd & Hm & Ho & _)];
    subst dist.
  - right. split; [apply SFltb_irrefl|]. split; [exact Ho|exact Hnear].
  - left. split; [exact Hm|]. exists s, t. repeat split; try assumption.
    rewrite Hp. apply in_or_app. right. left. reflexivity.
Qed.

Lemma SFltb_nan_free (a b : float32) :
  SFltb a b = true -> is_nan a = false /\ is_nan b = false.
Proof.
  destruct a as [sa|sa| |sa ma ea], b as [sb|sb| |sb mb eb];
    intros Hlt; try discriminate; split; reflexivity.
Qed.

Lemma SFcompare_eq_of_not_ltb (a b : float32) :
  SFltb a b = false -> SFltb b a = false ->
  is_nan a = false -> is_nan b = false ->
  SFcompare a b = Some Eq.
Proof.
  unfold SFltb.
  destruct a as [sa|sa| |sa ma ea], b as [sb|sb| |sb mb eb];
    try destruct sa; try destruct sb; simpl;
    intros Hab Hba Ha Hb; try discriminate; try reflexivity; cmp_cases.
Qed.

(** X9.  The result of [scene_intersect] does not depend on the order
    of the sphere list beyond ties: for two lists with the same
    spheres, in any order and with any repetitions, and whatever the
    reference parameters and the uninitialised locals hold, the two
    calls agree on whether the ray hits, and on a hit both record a
    sphere of the list at distances that compare equal. *)
Theorem scene_intersect_order_independent (u u' : Uninit float32)
  (orig dir : Vec3f float32) (spheres spheres' : list (Sphere float32))
  (out0 out0' : Outs float32) :
  (forall s : Sphere float32, In s spheres <-> In s spheres') ->
  fst (scene_intersect u orig dir spheres out0)
  = fst (scene_intersect u' orig dir spheres' out0') /\
  (fst (scene_intersect u orig dir spheres out0) = true ->
   exists s t s' t',
     In s spheres /\ In s' spheres /\
     intersection s orig dir = Some t /\
     intersection s' orig dir = Some t' /\
     snd (scene_intersect u orig dir spheres out0) = record_hit orig dir s t /\
     snd (scene_intersect u' orig dir spheres' out0')
     = record_hit orig dir s' t' /\
     SFcompare t t' = Some Eq).
Proof.
  intros Hsame.
  destruct (scene_intersect_outcome u orig dir spheres out0)
    as [[Hf (s & t & Hin & Hs & Hm & Ho & Hnear)]|[Hf [_ Hnear]]];
  destruct (scene_intersect_outcome u' orig dir spheres' out0')
    as [[Hf' (s' & t' & Hin' & Hs' & Hm' & Ho' & Hnear')]|[Hf' [_ Hnear']]];
  rewrite Hf, Hf'.
  - split; [reflexivity|]. intros _.
    exists s, t, s', t'. apply Hsame in Hin'.
    repeat split; try assumption.
    apply SFcompare_eq_of_not_ltb.
    + apply (Hnear' s t); [apply Hsame; exact Hin|exact Hs].
    + apply (Hnear s' t'); assumption.
    + apply (SFltb_nan_free _ _ Hm).
    + apply (SFltb_nan_free _ _ Hm').
  - exfalso. apply (eq_true_false_abs _ Hm).
    exact (Hnear' s t (proj1 (Hsame s) Hin) Hs).
  - exfalso. apply (eq_true_false_abs _ Hm').
    exact (Hnear s' t' (proj2 (Hsame s') Hin') Hs').
  - split; [reflexivity|discriminate].
Qed.

Lemma scene_intersect_order_independent_witness :
  fst (scene_intersect u_nan (vec3 0 0 0) (vec3 0 0 (-1))
         [front_sphere; ball (vec3 0 0 (-9)) 1]
         (mkOuts Vec3f_zero Vec3f_zero Vec3f_zero S754_nan S754_nan))
  = fst (scene_intersect u_num (vec3 0 0 0) (vec3 0 0 (-1))
           [ball (vec3 0 0 (-9)) 1; front_sphere]
           (mkOuts Vec3f_zero Vec3f_zero Vec3f_zero (of_int 1) (of_int 2))) /\
  (fst (scene_intersect u_nan (vec3 0 0 0) (vec3 0 0 (-1))
          [front_sphere; ball (vec3 0 0 (-9)) 1]
          (mkOuts Vec3f_zero Vec3f_zero Vec3f_zero S754_nan S754_nan)) = true ->
   exists s t s' t',
     In s [front_sphere; ball (vec3 0 0 (-9)) 1] /\
     In s' [front_sphere; ball (vec3 0 0 (-9)) 1] /\
     intersection s (vec3 0 0 0) (vec3 0 0 (-1)) = Some t /\
     intersection s' (vec3 0 0 0) (vec3 0 0 (-1)) = Some t' /\
     snd (scene_intersect u_nan (vec3 0 0 0) (vec3 0 0 (-1))
            [front_sphere; ball (vec3 0 0 (-9)) 1]
            (mkOuts Vec3f_zero Vec3f_zero Vec3f_zero S754_nan S754_nan))
     = record_hit (vec3 0 0 0) (vec3 0 0 (-1)) s t /\
     snd (scene_intersect u_num (vec3 0 0 0) (vec3 0 0 (-1))
            [ball (vec3 0 0 (-9)) 1; front_sphere]
            (mkOuts Vec3f_zero Vec3f_zero Vec3f_zero (of_int 1) (of_int 2)))
     = record_hit (vec3 0 0 0) (vec3 0 0 (-1)) s' t' /\
     SFcompare t t' = Some Eq).
Proof.
  apply (scene_intersect_order_independent u_nan u_num (vec3 0 0 0)
           (vec3 0 0 (-1)) [front_sphere; ball (vec3 0 0 (-9)) 1]
           [ball (vec3 0 0 (-9)) 1; front_sphere]).
  intros s. simpl. tauto.
Defined.

Lemma within_reach_unfold (orig dir : Vec3f float32) (s : Sphere float32) :
  within_reach orig dir s =
  match intersection s orig dir with
  | Some t => SFltb t flt_max
  | None => false
  end.
Proof.
  unfold within_reach, intersection.
  destruct (ray_intersect s orig dir (of_int 0)) as [[|] t]; reflexivity.
Qed.

Lemma scan_skips_out_of_reach (u : Uninit float32) (orig dir : Vec3f float32)
  (spheres : list (Sphere float32)) :
  forall st : float32 * Outs float32,
  fst st = flt_max \/ SFltb (fst st) flt_max = true ->
  scan u orig dir (filter (within_reach orig dir) spheres) st
  = scan u orig dir spheres st.
Proof.
  unfold scan.
  induction spheres as [|s rest IH]; intros st Hst; [reflexivity|].
  cbn [filter fold_left].
  assert (Hnext : fst (scan_step u orig dir st s) = flt_max \/
                  SFltb (fst (scan_step u orig dir st s)) flt_max = true).
  { rewrite scan_step_unfold.
    destruct (intersection s orig dir) as [t|]; [|exact Hst].
    destruct (flt t (fst st)) eqn:Hlt; [|exact Hst].
    right. cbn [fst]. destruct Hst as [Hst|Hst].
    - rewrite Hst in Hlt. exact Hlt.
    - exact (SFltb_trans _ _ _ Hlt Hst). }
  destruct (within_reach orig dir s) eqn:Hreach.
  - cbn [fold_left]. apply IH. exact Hnext.
  - rewrite IH by exact Hst. f_equal.
    rewrite scan_step_unfold. rewrite within_reach_unfold in Hreach.
    destruct (intersection s orig dir) as [t|]; [|reflexivity].
    destruct (flt t (fst st)) eqn:Hlt; [|reflexivity].
    exfalso. apply (eq_true_false_abs (SFltb t flt_max)); [|exact Hreach].
    destruct Hst as [Hst|Hst].
    + rewrite Hst in Hlt. exact Hlt.
    + exact (SFltb_trans _ _ _ Hlt Hst).
Qed.

(** X10.  Spheres that cannot be recorded have no influence on
    [scene_intersect]: removing from the list every sphere that
    [ray_intersect] misses, or reports at a distance that is NaN or not
    below [FLT_MAX], changes neither the returned flag nor any of the
    five reference parameters. *)
Theorem scene_intersect_relevant_spheres (u : Uninit float32)
  (orig dir : Vec3f float32) (spheres : list (Sphere float32))
  (out0 : Outs float32) :
  scene_intersect u orig dir (filter (within_reach orig dir) spheres) out0
  = scene_intersect u orig dir spheres out0.
Proof.
  unfold scene_intersect.
  rewrite scan_skips_out_of_reach by (left; reflexivity). reflexivity.
Qed.

Lemma intersection_not_below_zero (s : Sphere float32) (orig dir : Vec3f float32)
  (t : float32) :
  intersection s orig dir = Some t -> (t <? of_int 0)%flt = false.
Proof.
  intros Hs. apply (intersection_some s orig dir (of_int 0) t) in Hs.
  rewrite ray_intersect_unfold in Hs.
  destruct (flt _ (d2_of _ _ _)); [discriminate|].
  cbv zeta in Hs.
  pose proof (f_equal fst Hs) as Hneg. pose proof (f_equal snd Hs) as Ht.
  cbn [fst snd] in Hneg, Ht. rewrite Ht in Hneg.
  apply negb_true_iff in Hneg. exact Hneg.
Qed.

Lemma finite_between (t : float32) :
  SFltb t (S754_zero false) = false -> SFltb t flt_max = true ->
  f32_finite t = true /\ SFleb (S754_zero false) t = true.
Proof.
  destruct t as [s|s| |s m e]; try destruct s; intros H0 Hm;
    try discriminate; split; reflexivity.
Qed.

(** X11.  When [scene_intersect] reports a hit, the reference
    parameters hold the record of a sphere of the list for which
    [ray_intersect] returned [true]: the hit point [orig + dir * t],
    the normalised vector from the centre to it, and the material of
    that sphere; and the distance [t] is a finite number that is not
    below zero and is below [FLT_MAX]. *)
Theorem scene_intersect_hit_distance (u : Uninit float32)
  (orig dir : Vec3f float32) (spheres : list (Sphere float32))
  (out0 : Outs float32) :
  fst (scene_intersect u orig dir spheres out0) = true ->
  exists s t,
    In s spheres /\
    ray_intersect s orig dir (u_t u) = (true, t) /\
    snd (scene_intersect u orig dir spheres out0)
    = mkOuts (orig + dir * t)%vec
        (normalize (orig + dir * t - center s)%vec)
        (color s) (specular s) (reflective s) /\
    f32_finite t = true /\
    SFleb (of_int 0) t = true /\ SFltb t flt_max = true.
Proof.
  intros Hfound.
  destruct (scene_intersect_outcome u orig dir spheres out0)
    as [[_ (s & t & Hin & Hs & Hm & Ho & _)]|[Hf _]];
    [|rewrite Hf in Hfound; discriminate].
  exists s, t. split; [exact Hin|].
  split; [apply intersection_some; exact Hs|].
  split; [exact Ho|].
  destruct (finite_between t (intersection_not_below_zero s orig dir t Hs) Hm)
    as [Hfin Hle].
  split; [exact Hfin|]. split; [exact Hle|exact Hm].
Qed.

Lemma scene_intersect_hit_distance_witness :
  exists s t,
    In s [front_sphere] /\
    ray_intersect s (vec3 0 0 0) (vec3 0 0 (-1)) (u_t u_nan) = (true, t) /\
    snd (scene_intersect u_nan (vec3 0 0 0) (vec3 0 0 (-1)) [front_sphere]
           up_point)
    = mkOuts (vec3 0 0 0 + vec3 0 0 (-1) * t)%vec
        (normalize (vec3 0 0 0 + vec3 0 0 (-1) * t - center s)%vec)
        (color s) (specular s) (reflective s) /\
    f32_finite t = true /\
    SFleb (of_int 0) t = true /\ SFltb t flt_max = true.
Proof.
  apply (scene_intersect_hit_distance u_nan (vec3 0 0 0) (vec3 0 0 (-1))
           [front_sphere] up_point).
  vm_compute. reflexivity.
Defined.

(** ** Rays with a NaN component *)

Lemma is_nan_eq (a : float32) : is_nan a = true -> a = S754_nan.
Proof. destruct a; try discriminate; reflexivity. Qed.

Lemma f32_add_nan_l (a : float32) : (S754_nan + a)%flt = S754_nan.
Proof. reflexivity. Qed.

Lemma f32_add_nan_r (a : float32) : (a + S754_nan)%flt = S754_nan.
Proof. destruct a; reflexivity. Qed.

Lemma f32_sub_nan_l (a : float32) : (S754_nan - a)%flt = S754_nan.
Proof. reflexivity. Qed.

Lemma f32_sub_nan_r (a : float32) : (a - S754_nan)%flt = S754_nan.
Proof. destruct a; reflexivity. Qed.

Lemma f32_mul_nan_l (a : float32) : (S754_nan * a)%flt = S754_nan.
Proof. reflexivity. Qed.

Lemma f32_mul_nan_r (a : float32) : (a * S754_nan)%flt = S754_nan.
Proof. destruct a; reflexivity. Qed.

Lemma f32_lt_nan_l (a : float32) : (S754_nan <? a)%flt = false.
Proof. reflexivity. Qed.

Lemma f32_lt_nan_r (a : float32) : (a <? S754_nan)%flt = false.
Proof. destruct a as [s|s| |s m e]; try destruct s; reflexivity. Qed.

Lemma dot_nan_r (a b : Vec3f float32) :
  Vec3f_has_nan b = true -> dot a b = S754_nan.
Proof.
  unfold Vec3f_has_nan. intros Hb.
  change (dot a b) with (x a * x b + y a * y b + z a * z b)%flt.
  apply orb_true_iff in Hb. destruct Hb as [Hb|Hz].
  - apply orb_true_iff in Hb. destruct Hb as [Hx|Hy].
    + rewrite (is_nan_eq _ Hx), f32_mul_nan_r, !f32_add_nan_l. reflexivity.
    + rewrite (is_nan_eq _ Hy), f32_mul_nan_r, f32_add_nan_r, f32_add_nan_l.
      reflexivity.
  - rewrite (is_nan_eq _ Hz), f32_mul_nan_r, f32_add_nan_r. reflexivity.
Qed.

Lemma sub_has_nan_r (a b : Vec3f float32) :
  Vec3f_has_nan b = true -> Vec3f_has_nan (a - b)%vec = true.
Proof.
  unfold Vec3f_has_nan, Vec3f_sub. cbn [x y z]. intros Hb.
  apply orb_true_iff in Hb. destruct Hb as [Hb|Hz].
  - apply orb_true_iff in Hb. destruct Hb as [Hx|Hy].
    + rewrite (is_nan_eq _ Hx), f32_sub_nan_r. reflexivity.
    + rewrite (is_nan_eq _ Hy), f32_sub_nan_r. cbn [is_nan].
      rewrite orb_true_r. reflexivity.
  - rewrite (is_nan_eq _ Hz), f32_sub_nan_r. rewrite !orb_true_r. reflexivity.
Qed.

Lemma d2_of_nan (s : Sphere float32) (orig dir : Vec3f float32) :
  Vec3f_has_nan orig || Vec3f_has_nan dir = true ->
  d2_of s orig dir = S754_nan.
Proof.
  intros Hn. unfold d2_of, tca_of.
  apply orb_true_iff in Hn. destruct Hn as [Ho|Hd].
  - rewrite (dot_nan_r (center s - orig)%vec (center s - orig)%vec)
      by (apply sub_has_nan_r; exact Ho).
    apply f32_sub_nan_l.
  - rewrite (dot_nan_r (center s - orig)%vec dir Hd).
    rewrite f32_mul_nan_l. apply f32_sub_nan_r.
Qed.

Lemma ray_intersect_nan_d2 (s : Sphere float32) (orig dir : Vec3f float32)
  (t_in : float32) :
  d2_of s orig dir = S754_nan ->
  ray_intersect s orig dir t_in = (true, S754_nan).
Proof.
  intros Hd. rewrite ray_intersect_unfold.
  unfold near_root, far_root, thc_of. rewrite Hd.
  rewrite f32_lt_nan_r, f32_sub_nan_r.
  change (fsqrt (S754_nan : float32)) with (S754_nan : float32).
  rewrite f32_sub_nan_r, f32_add_nan_r. reflexivity.
Qed.

Lemma scan_nan_ray (u : Uninit float32) (orig dir : Vec3f float32)
  (spheres : list (Sphere float32)) :
  Vec3f_has_nan orig || Vec3f_has_nan dir = true ->
  forall st : float32 * Outs float32, scan u orig dir spheres st = st.
Proof.
  intros Hn. unfold scan.
  induction spheres as [|s rest IH]; intros st; [reflexivity|].
  simpl. rewrite <- (IH st) at 2. f_equal.
  unfold scan_step.
  rewrite (ray_intersect_nan_d2 s orig dir (u_t u) (d2_of_nan s orig dir Hn)).
  rewrite f32_lt_nan_l. reflexivity.
Qed.

(** X12.  A ray with a NaN component in its origin or direction is
    rendered as background: [ray_intersect] returns [true] for every
    sphere, with a NaN distance, but NaN never passes [t < dist], so
    [scene_intersect] returns [false] with its reference parameters
    untouched and [cast_ray] returns the background colour at every
    depth. *)
Theorem nan_ray_background (pow : float32 -> float32 -> float32)
  (u : Uninit float32) (orig dir : Vec3f float32)
  (spheres : list (Sphere float32)) (lights : list (Light float32))
  (out0 : Outs float32) (depth : Z) :
  Vec3f_has_nan orig || Vec3f_has_nan dir = true ->
  (forall (s : Sphere float32) (t_in : float32),
     ray_intersect s orig dir t_in = (true, S754_nan)) /\
  scene_intersect u orig dir spheres out0 = (false, out0) /\
  cast_ray pow u orig dir spheres lights depth = background.
Proof.
  intros Hn.
  assert (Hscene : forall out, scene_intersect u orig dir spheres out = (false, out)).
  { intros out. unfold scene_intersect.
    rewrite (scan_nan_ray u orig dir spheres Hn). reflexivity. }
  split; [|split].
  - intros s t_in. apply ray_intersect_nan_d2. apply d2_of_nan. exact Hn.
  - apply Hscene.
  - unfold cast_ray. rewrite cast_ray_cost_unfold.
    destruct (depth >? 4)%Z; [reflexivity|].
    rewrite Hscene. reflexivity.
Qed.

Lemma nan_ray_background_witness :
  (forall (s : Sphere float32) (t_in : float32),
     ray_intersect s (vec3 0 0 0) (mkVec3f S754_nan (of_int 0) (of_int (-1))) t_in
     = (true, S754_nan)) /\
  scene_intersect u_num (vec3 0 0 0) (mkVec3f S754_nan (of_int 0) (of_int (-1)))
    [front_sphere] up_point = (false, up_point) /\
  cast_ray pow_example u_num (vec3 0 0 0)
    (mkVec3f S754_nan (of_int 0) (of_int (-1))) [front_sphere] [near_light] 0
  = background.
Proof.
  apply (nan_ray_background pow_example u_num (vec3 0 0 0)
           (mkVec3f S754_nan (of_int 0) (of_int (-1))) [front_sphere]
           [near_light] up_point 0).
  reflexivity.
Defined.

(** ** A scene without spheres *)

Lemma cast_ray_no_spheres (pow : float32 -> float32 -> float32)
  (u : Uninit float32) (orig dir : Vec3f float32)
  (lights : list (Light float32)) (depth : Z) :
  cast_ray pow u orig dir [] lights depth = background.
Proof.
  unfold cast_ray. rewrite cast_ray_cost_unfold.
  destruct (depth >? 4)%Z; reflexivity.
Qed.

(** X13.  With an empty sphere list every ray yields the background
    colour, the framebuffer rendered for a positive width and a height
    that is not negative holds the background colour in each of its
    [width * height] entries, and the file is the header followed by
    the three bytes 51, 178, 204 for every pixel, for any lights, field
    of view, [tan] and [pow]. *)
Theorem empty_scene_image (pow : float32 -> float32 -> float32)
  (tan : float64 -> float64) (u : Uninit float32) (width height : Z)
  (fov : float32) (lights : list (Light float32)) :
  (0 < width)%Z -> (0 <= height)%Z ->
  (forall (orig dir : Vec3f float32) (depth : Z),
     cast_ray pow u orig dir [] lights depth = background) /\
  render pow tan u width height fov [] lights
  = repeat background (Z.to_nat (width * height)) /\
  pixel_bytes background
  = String (ascii_of_nat 51)
      (String (ascii_of_nat 178) (String (ascii_of_nat 204) EmptyString)) /\
  render_ppm pow tan u width height fov [] lights
  = (ppm_header width height
     ++ ppm_pixels (repeat background (Z.to_nat (width * height))))%string.
Proof.
  intros Hw Hh.
  assert (Hfb : render pow tan u width height fov [] lights
                = repeat background (Z.to_nat (width * height))).
  { apply nth_error_ext. intros k.
    unfold render, counter. rewrite render_rows_upto by exact Hw.
    rewrite repeat_length.
    replace (Z.to_nat (width * height))
      with (Z.to_nat height * Z.to_nat width)%nat by nia.
    rewrite andb_diag.
    destruct (k <? Z.to_nat height * Z.to_nat width)%nat eqn:Hk.
    - apply Nat.ltb_lt in Hk. rewrite nth_error_repeat by exact Hk.
      unfold pixel_color. rewrite cast_ray_no_spheres. reflexivity.
    - apply Nat.ltb_ge in Hk.
      rewrite (proj2 (nth_error_None _ _)) by (rewrite repeat_length; exact Hk).
      rewrite (proj2 (nth_error_None _ _)) by (rewrite repeat_length; exact Hk).
      reflexivity. }
  split; [intros orig dir depth; apply cast_ray_no_spheres|].
  split; [exact Hfb|]. split; [vm_compute; reflexivity|].
  unfold render_ppm, ppm_file. rewrite Hfb. reflexivity.
Qed.

Lemma empty_scene_image_witness :
  (forall (orig dir : Vec3f float32) (depth : Z),
     cast_ray pow_example u_nan orig dir [] [near_light] depth = background) /\
  render pow_example (fun a => a) u_nan 4 3 (of_int 1) [] [near_light]
  = repeat background (Z.to_nat (4 * 3)) /\
  pixel_bytes background
  = String (ascii_of_nat 51)
      (String (ascii_of_nat 178) (String (ascii_of_nat 204) EmptyString)) /\
  render_ppm pow_example (fun a => a) u_nan 4 3 (of_int 1) [] [near_light]
  = (ppm_header 4 3 ++ ppm_pixels (repeat background (Z.to_nat (4 * 3))))%string.
Proof.
  apply (empty_scene_image pow_example (fun a => a) u_nan 4 3 (of_int 1)
           [near_light]); lia.
Defined.

(** ** Saturation of the output bytes *)

(** X14.  The bytes saturate: every channel that compares at or
    below zero, the negative zero and minus infinity included, is
    written as byte 0, and every channel that does not compare below
    one, plus infinity and NaN included, is written as byte 255. *)
Theorem channel_byte_saturates (c : float32) :
  (SFleb c (of_int 0) = true -> channel_byte c = 0%Z) /\
  ((c <? of_int 1)%flt = false -> channel_byte c = 255%Z) /\
  channel_byte (S754_infinity true) = 0%Z /\
  channel_byte (S754_zero true) = 0%Z /\
  channel_byte (S754_infinity false) = 255%Z.
Proof.
  split; [|split; [|repeat split]].
  - intros Hle. unfold channel_byte, clamp01, fmax, fmin.
    assert (Hone : (c <? of_int 1)%flt = true).
    { apply (SFleb_ltb_trans c (of_int 0) (of_int 1) Hle). vm_compute. reflexivity. }
    rewrite Hone.
    assert (Hzero : (of_int 0 <? c)%flt = false).
    { destruct ((of_int 0 <? c)%flt) eqn:Hz; [|reflexivity].
      pose proof (SFleb_ltb_trans c (of_int 0) c Hle Hz) as Hcc.
      rewrite SFltb_irrefl in Hcc. discriminate. }
    rewrite Hzero. vm_compute. reflexivity.
  - intros Hone. unfold channel_byte, clamp01, fmax, fmin.
    rewrite Hone.
    replace ((of_int 0 <? of_int 1)%flt) with true by (vm_compute; reflexivity).
    vm_compute. reflexivity.
Qed.
